(** * The session pipeline of the duplex audio server

    Shallow embedding of [handle_conn] (src/server_opus.py) and [handle_chat]
    (src/moshi/moshi/server.py): the three cooperative loops [recv_loop],
    [opus_loop], [send_loop], the handler that runs them under
    [asyncio.Lock], and the process-wide event loop that interleaves the
    tasks of all connections.

    The two files differ only in the transport library (websockets versus
    aiohttp); the difference is carried by a [variant].  Everything the
    server calls but does not define (the opus stream reader and writer of
    sphn, the audio codec and language model, the sentencepiece tokenizer,
    the socket) is a field of [Collaborators]; the code is modelled over an
    arbitrary instance. *)

From Stdlib Require Import ZArith NArith List Lia Bool.
From Stdlib.Strings Require Import Byte Ascii String.
From stdpp Require Import base list gmap strings.
Import ListNotations.

Local Open Scope nat_scope.

(** ** Python values that cross the transport *)

Abbreviation bytes := (list byte).

(** A Python [str]: its code points. *)
Abbreviation pystr := (list N).

(** The exceptions the handler can meet.  [WebSocketException] stands for
    websockets.exceptions.WebSocketException and its subclasses, the only
    class named by an [except] clause; [ExternalError] is any other
    exception raised by a collaborator. *)
Inductive exn :=
| WebSocketException
| IndexError
| AssertionError
| UnicodeEncodeError
| AttributeError
| ExternalError (tag : nat).

(** What a transport frame carries once the library has decoded it: [bytes]
    for a binary frame, [str] for a text frame, anything else otherwise. *)
Inductive payload :=
| PyBytes (b : bytes)
| PyStr (s : pystr)
| PyNone.

(** aiohttp.WSMsgType *)
Inductive WSMsgType :=
| CONTINUATION | TEXT | BINARY | PING | PONG | CLOSE | CLOSING | CLOSED | ERROR.

Record WSMessage := { msg_type : WSMsgType; msg_data : payload }.

(** One turn of [async for message in websocket]: a message, the end of
    the iteration (the peer closed), or an exception. *)
Inductive incoming :=
| InMsg (m : WSMessage)
| InEnd
| InRaise (e : exn).

(** The two servers. *)
Inductive variant :=
| ServerOpus      (* src/server_opus.py, websockets *)
| ServerAiohttp.  (* src/moshi/moshi/server.py, aiohttp *)

(** ** Logging

    [log] is only ever called with one of its three levels, so that its
    ValueError cannot occur. *)

Inductive level := LvlWarning | LvlInfo | LvlError.

(** The messages passed to [log], one constructor per call site (the
    interpolated values are kept as arguments). *)
Inductive log_msg :=
| MsgWsException            (* f"{ws.exception()}" *)
| MsgUnexpectedType (t : WSMsgType)
| MsgUnsupportedType
| MsgEmptyMessage
| MsgUnknownKind (kind : Z)
| MsgDroppedConnection
| MsgConnectionClosed
| MsgTextToken (text : pystr)
| MsgFrameHandled
| MsgAcceptedConnection
| MsgDoneWithConnection.

(** ** The collaborators

    What the server calls and does not define.  The calls of the codec
    and of the language model on a frame, and the sends on the socket,
    may raise; the other calls are taken to return. *)

Class Collaborators := {
  sample : Type;                 (* one PCM sample *)
  codes : Type;                  (* one column codes[:, :, c:c+1] *)
  OpusStreamReader_t : Type;
  OpusStreamWriter_t : Type;
  model_t : Type;                (* streaming state of the codec and the LM *)
  websocket_t : Type;
  (* sphn *)
  OpusStreamReader : OpusStreamReader_t;
  OpusStreamWriter : OpusStreamWriter_t;
  append_bytes : bytes -> OpusStreamReader_t -> OpusStreamReader_t;
  read_pcm : OpusStreamReader_t -> list sample * OpusStreamReader_t;
  append_pcm : list sample -> OpusStreamWriter_t -> OpusStreamWriter_t;
  read_bytes : OpusStreamWriter_t -> bytes * OpusStreamWriter_t;
  (* the model resource *)
  frame_size : nat;              (* int(sample_rate / frame_rate) *)
  dep_q : nat;                   (* lm_gen.lm_model.dep_q *)
  ec_encode : list sample -> model_t -> (exn + list codes) * model_t;
  lm_gen_step : codes -> model_t -> (exn + option (list Z)) * model_t;
  ec_decode : list Z -> model_t -> (exn + list sample) * model_t;
  ec_reset_streaming : model_t -> model_t;
  lm_gen_reset_streaming : model_t -> model_t;
  (* sentencepiece *)
  id_to_piece : Z -> pystr;
  (* the socket *)
  websocket_send : bytes -> websocket_t -> option exn * websocket_t;
  websocket_next : websocket_t -> incoming * websocket_t
}.

Section Model.
Context {E : Collaborators}.

(** ** Events: the calls a task makes, in the order it makes them *)

Inductive event :=
| EvLog (l : level) (m : log_msg)
| EvAcquire                       (* entering [async with self.lock] *)
| EvRelease                       (* leaving it *)
| EvNewWriter
| EvNewReader
| EvEcReset
| EvLmReset
| EvWsSend (msg : bytes) (ok : bool)   (* [ok = false]: the call raised *)
| EvAppendBytes (p : bytes)
| EvReadPcm (pcm : list sample)
| EvEncode (chunk : list sample)
| EvStep (c : codes)
| EvDecode (toks : list Z)
| EvAppendPcm (pcm : list sample)
| EvReadBytes (b : bytes).

(** How a block of statements ends. *)
Inductive ctl :=
| Continue
| Break
| Raise (e : exn).

(** ** [recv_loop]: the body of the [async for] *)

(** [message[0]] on [bytes]: an int, or IndexError. *)
Definition bytes_index0 (b : bytes) : exn + Z :=
  match b with
  | [] => inl IndexError
  | k :: _ => inr (Z.of_N (Byte.to_N k))
  end.

(** Lines 115-126 of src/server_opus.py, shared by both servers (lines
    92-103 of server.py): [message] is the decoded payload. *)
Definition recv_dispatch (message : payload) (r : OpusStreamReader_t)
  : OpusStreamReader_t * list event * ctl :=
  match message with
  | PyBytes b =>
      if length b =? 0 then (r, [EvLog LvlWarning MsgEmptyMessage], Continue)
      else
        match bytes_index0 b with
        | inl e => (r, [], Raise e)
        | inr kind =>
            if (kind =? 1)%Z then
              let payload := drop 1 b in
              (append_bytes payload r, [EvAppendBytes payload], Continue)
            else (r, [EvLog LvlWarning (MsgUnknownKind kind)], Continue)
        end
  | _ => (r, [EvLog LvlError MsgUnsupportedType], Continue)
  end.

(** The whole body for each server.  websockets hands over the payload
    itself; aiohttp hands over a [WSMessage] whose type is inspected first
    (lines 83-91 of server.py). *)
Definition recv_body (v : variant) (message : WSMessage) (r : OpusStreamReader_t)
  : OpusStreamReader_t * list event * ctl :=
  match v with
  | ServerOpus => recv_dispatch (msg_data message) r
  | ServerAiohttp =>
      match msg_type message with
      | ERROR => (r, [EvLog LvlError MsgWsException], Break)
      | CLOSED => (r, [], Break)
      | BINARY => recv_dispatch (msg_data message) r
      | t => (r, [EvLog LvlError (MsgUnexpectedType t)], Continue)
      end
  end.

(** The frame reaches the dispatch on its payload: always with websockets,
    for a BINARY frame with aiohttp. *)
Definition dispatched (v : variant) (m : WSMessage) : Prop :=
  match v with
  | ServerOpus => True
  | ServerAiohttp => msg_type m = BINARY
  end.

(** ** Tasks and their program points

    A connection is served by four tasks: the handler and the three loops
    it passes to [asyncio.gather].  A program point is a place where the
    task is suspended in an [await] (or has finished), except the two
    points inside the frame loop of [opus_loop], which has no bound on the
    work it does between two awaits. *)

Inductive task := THandler | TRecv | TOpus | TSend.

Inductive handler_pc :=
| HStart             (* server.py: suspended in [await ws.prepare(request)] *)
| HAccepted          (* about to log "accepted connection" *)
| HWaitLock          (* suspended in [self.lock.acquire()] *)
| HAwaitHandshake    (* suspended in the send of the handshake *)
| HGather            (* suspended in [asyncio.gather] *)
| HDone
| HRaised (e : exn).

Inductive recv_pc :=
| RecvIdle           (* not created yet *)
| RecvWaiting        (* suspended in [async for] *)
| RecvDone
| RecvRaised (e : exn).

Inductive opus_pc :=
| OpusIdle
| OpusStart          (* created, not run yet *)
| OpusSleep          (* suspended in [asyncio.sleep(0.001)] *)
| OpusWhile          (* at the test of the [while] over the buffer *)
| OpusFor (cols : list codes)   (* at the head of the [for] over the columns *)
| OpusAwaitSend (cols : list codes)   (* suspended in the send of a text message *)
| OpusDone
| OpusRaised (e : exn).

Inductive send_pc :=
| SendIdle
| SendStart
| SendSleep          (* suspended in [asyncio.sleep(0.001)] *)
| SendAwaitSend      (* suspended in the send of an audio message *)
| SendDone
| SendRaised (e : exn).

(** The variables of one call of the handler.  [close], [opus_reader] and
    [opus_writer] are the closure variables shared by the loops;
    [all_pcm_data] is local to [opus_loop]; [gather_exc] is the exception
    set on the future of [asyncio.gather], if any. *)
Record session := {
  websocket : websocket_t;
  close : bool;
  opus_reader : OpusStreamReader_t;
  opus_writer : OpusStreamWriter_t;
  all_pcm_data : option (list sample);
  h_pc : handler_pc;
  r_pc : recv_pc;
  o_pc : opus_pc;
  s_pc : send_pc;
  gather_exc : option exn
}.

Definition set_websocket (w : websocket_t) (s : session) : session :=
  {| websocket := w; close := close s; opus_reader := opus_reader s;
     opus_writer := opus_writer s; all_pcm_data := all_pcm_data s;
     h_pc := h_pc s; r_pc := r_pc s; o_pc := o_pc s; s_pc := s_pc s;
     gather_exc := gather_exc s |}.

Definition set_close (b : bool) (s : session) : session :=
  {| websocket := websocket s; close := b; opus_reader := opus_reader s;
     opus_writer := opus_writer s; all_pcm_data := all_pcm_data s;
     h_pc := h_pc s; r_pc := r_pc s; o_pc := o_pc s; s_pc := s_pc s;
     gather_exc := gather_exc s |}.

Definition set_opus_reader (r : OpusStreamReader_t) (s : session) : session :=
  {| websocket := websocket s; close := close s; opus_reader := r;
     opus_writer := opus_writer s; all_pcm_data := all_pcm_data s;
     h_pc := h_pc s; r_pc := r_pc s; o_pc := o_pc s; s_pc := s_pc s;
     gather_exc := gather_exc s |}.

Definition set_opus_writer (w : OpusStreamWriter_t) (s : session) : session :=
  {| websocket := websocket s; close := close s; opus_reader := opus_reader s;
     opus_writer := w; all_pcm_data := all_pcm_data s;
     h_pc := h_pc s; r_pc := r_pc s; o_pc := o_pc s; s_pc := s_pc s;
     gather_exc := gather_exc s |}.

Definition set_all_pcm_data (a : option (list sample)) (s : session) : session :=
  {| websocket := websocket s; close := close s; opus_reader := opus_reader s;
     opus_writer := opus_writer s; all_pcm_data := a;
     h_pc := h_pc s; r_pc := r_pc s; o_pc := o_pc s; s_pc := s_pc s;
     gather_exc := gather_exc s |}.

Definition set_h_pc (p : handler_pc) (s : session) : session :=
  {| websocket := websocket s; close := close s; opus_reader := opus_reader s;
     opus_writer := opus_writer s; all_pcm_data := all_pcm_data s;
     h_pc := p; r_pc := r_pc s; o_pc := o_pc s; s_pc := s_pc s;
     gather_exc := gather_exc s |}.

Definition set_r_pc (p : recv_pc) (s : session) : session :=
  {| websocket := websocket s; close := close s; opus_reader := opus_reader s;
     opus_writer := opus_writer s; all_pcm_data := all_pcm_data s;
     h_pc := h_pc s; r_pc := p; o_pc := o_pc s; s_pc := s_pc s;
     gather_exc := gather_exc s |}.

Definition set_o_pc (p : opus_pc) (s : session) : session :=
  {| websocket := websocket s; close := close s; opus_reader := opus_reader s;
     opus_writer := opus_writer s; all_pcm_data := all_pcm_data s;
     h_pc := h_pc s; r_pc := r_pc s; o_pc := p; s_pc := s_pc s;
     gather_exc := gather_exc s |}.

Definition set_s_pc (p : send_pc) (s : session) : session :=
  {| websocket := websocket s; close := close s; opus_reader := opus_reader s;
     opus_writer := opus_writer s; all_pcm_data := all_pcm_data s;
     h_pc := h_pc s; r_pc := r_pc s; o_pc := o_pc s; s_pc := p;
     gather_exc := gather_exc s |}.

Definition set_gather_exc (x : option exn) (s : session) : session :=
  {| websocket := websocket s; close := close s; opus_reader := opus_reader s;
     opus_writer := opus_writer s; all_pcm_data := all_pcm_data s;
     h_pc := h_pc s; r_pc := r_pc s; o_pc := o_pc s; s_pc := s_pc s;
     gather_exc := x |}.

(** ** [recv_loop] *)

(** The [finally] clause: [close = True], then the log line. *)
Definition recv_finally (p : recv_pc) (s : session) (evs : list event)
  : session * list event :=
  (set_r_pc p (set_close true s), evs ++ [EvLog LvlInfo MsgConnectionClosed]).

(** An exception leaves the [try].  server_opus.py catches
    [WebSocketException]; server.py has no [except] clause. *)
Definition recv_except (v : variant) (e : exn) (s : session) (evs : list event)
  : session * list event :=
  match v, e with
  | ServerOpus, WebSocketException =>
      recv_finally RecvDone s (evs ++ [EvLog LvlError MsgDroppedConnection])
  | _, _ => recv_finally (RecvRaised e) s evs
  end.

(** One resumption of [recv_loop]: the next turn of the [async for]. *)
Definition recv_step (v : variant) (s : session) : session * list event :=
  match r_pc s with
  | RecvWaiting =>
      let '(inc, w) := websocket_next (websocket s) in
      let s := set_websocket w s in
      match inc with
      | InMsg message =>
          let '(r, evs, c) := recv_body v message (opus_reader s) in
          let s := set_opus_reader r s in
          match c with
          | Continue => (s, evs)
          | Break => recv_finally RecvDone s evs
          | Raise e => recv_except v e s evs
          end
      | InEnd => recv_finally RecvDone s []
      | InRaise e => recv_except v e s []
      end
  | _ => (s, [])
  end.

(** ** [send_loop]

    The [print] that server_opus.py makes before each send is a debugging
    aid and is left out. *)

(** The head of the [while True]: return if [close], else sleep. *)
Definition send_top (s : session) : session :=
  if close s then set_s_pc SendDone s else set_s_pc SendSleep s.

Definition send_step (s : session) : session * list event :=
  match s_pc s with
  | SendStart | SendAwaitSend => (send_top s, [])
  | SendSleep =>
      let '(msg, w) := read_bytes (opus_writer s) in
      let s := set_opus_writer w s in
      if 0 <? length msg then
        let '(r, t) := websocket_send (x01 :: msg) (websocket s) in
        let s := set_websocket t s in
        match r with
        | None => (set_s_pc SendAwaitSend s,
                   [EvReadBytes msg; EvWsSend (x01 :: msg) true])
        | Some e => (set_s_pc (SendRaised e) s,
                     [EvReadBytes msg; EvWsSend (x01 :: msg) false])
        end
      else (send_top s, [EvReadBytes msg])
  | _ => (s, [])
  end.

(** ** [opus_loop] *)

(** [bytes(_text, encoding="utf8")], one code point at a time.  Lone
    surrogates are refused (UnicodeEncodeError). *)
Definition byte_of_N (n : N) : byte :=
  match Byte.of_N n with Some b => b | None => x00 end.

Definition utf8_char (c : N) : option bytes :=
  (if c <? 128 then Some [byte_of_N c]
   else if c <? 2048 then
     Some [byte_of_N (192 + c / 64); byte_of_N (128 + c mod 64)]
   else if (55296 <=? c) && (c <=? 57343) then None
   else if c <? 65536 then
     Some [byte_of_N (224 + c / 4096); byte_of_N (128 + (c / 64) mod 64);
           byte_of_N (128 + c mod 64)]
   else if c <? 1114112 then
     Some [byte_of_N (240 + c / 262144); byte_of_N (128 + (c / 4096) mod 64);
           byte_of_N (128 + (c / 64) mod 64); byte_of_N (128 + c mod 64)]
   else None)%N.

Fixpoint utf8 (s : pystr) : option bytes :=
  match s with
  | [] => Some []
  | c :: s' =>
      match utf8_char c, utf8 s' with
      | Some b, Some bs => Some (b ++ bs)
      | _, _ => None
      end
  end.

(** [_text.replace("▁", " ")]: U+2581 becomes U+0020. *)
Definition replace_marker (s : pystr) : pystr :=
  map (fun c => if (c =? 9601)%N then 32%N else c) s.

(** [text_token not in (0, 3)] *)
Definition reserved (text_token : Z) : bool :=
  ((text_token =? 0) || (text_token =? 3))%Z.

(** Lines 164-166: the text of a token and the message that carries it. *)
Definition token_text (text_token : Z) : pystr :=
  replace_marker (id_to_piece text_token).

Definition text_message (text_token : Z) : option bytes :=
  match utf8 (token_text text_token) with
  | Some b => Some (x02 :: b)
  | None => None
  end.

(** Lines 158-168: what is done with the tokens of one model step.
    [tokens] lists [tokens[0, k, 0]] for k = 0 .. tokens.shape[1] - 1;
    [rest] are the columns still to be stepped. *)
Definition handle_tokens (tokens : list Z) (rest : list codes)
    (s : session) (m : model_t) : session * model_t * list event :=
  if negb (length tokens =? dep_q + 1) then
    (set_o_pc (OpusRaised AssertionError) s, m, [])
  else
    let audio := drop 1 tokens in
    match ec_decode audio m with
    | (inl e, m) => (set_o_pc (OpusRaised e) s, m, [EvDecode audio])
    | (inr main_pcm, m) =>
        let s := set_opus_writer (append_pcm main_pcm (opus_writer s)) s in
        let evs := [EvDecode audio; EvAppendPcm main_pcm] in
        match tokens with
        | [] => (set_o_pc (OpusRaised IndexError) s, m, evs)
        | text_token :: _ =>
            if reserved text_token then (set_o_pc (OpusFor rest) s, m, evs)
            else
              match text_message text_token with
              | None => (set_o_pc (OpusRaised UnicodeEncodeError) s, m, evs)
              | Some msg =>
                  let evs := evs ++ [EvLog LvlInfo (MsgTextToken (token_text text_token))] in
                  let '(r, t) := websocket_send msg (websocket s) in
                  let s := set_websocket t s in
                  match r with
                  | None => (set_o_pc (OpusAwaitSend rest) s, m,
                             evs ++ [EvWsSend msg true])
                  | Some e => (set_o_pc (OpusRaised e) s, m,
                               evs ++ [EvWsSend msg false])
                  end
              end
        end
    end.

(** The head of the [while True]: return if [close], else sleep. *)
Definition opus_top (s : session) : session :=
  if close s then set_o_pc OpusDone s else set_o_pc OpusSleep s.

(** The samples held in the accumulation buffer ([None] holds none). *)
Definition buffer (s : session) : list sample :=
  match all_pcm_data s with
  | None => []
  | Some a => a
  end.

(** One step of [opus_loop]: from a program point to the next one. *)
Definition opus_step (s : session) (m : model_t)
  : session * model_t * list event :=
  match o_pc s with
  | OpusStart => (opus_top (set_all_pcm_data None s), m, [])
  | OpusSleep =>
      let '(pcm, r) := read_pcm (opus_reader s) in
      let s := set_opus_reader r s in
      if length pcm =? 0 then (opus_top s, m, [EvReadPcm pcm])
      else
        let a := match all_pcm_data s with
                 | None => pcm
                 | Some a => a ++ pcm
                 end in
        (set_o_pc OpusWhile (set_all_pcm_data (Some a) s), m, [EvReadPcm pcm])
  | OpusWhile =>
      match all_pcm_data s with
      | None => (set_o_pc (OpusRaised AttributeError) s, m, [])
      | Some a =>
          if frame_size <=? length a then
            let chunk := take frame_size a in
            let s := set_all_pcm_data (Some (drop frame_size a)) s in
            match ec_encode chunk m with
            | (inl e, m) => (set_o_pc (OpusRaised e) s, m, [EvEncode chunk])
            | (inr cs, m) => (set_o_pc (OpusFor cs) s, m, [EvEncode chunk])
            end
          else (opus_top s, m, [])
      end
  | OpusFor [] => (set_o_pc OpusWhile s, m, [EvLog LvlInfo MsgFrameHandled])
  | OpusFor (c :: rest) =>
      match lm_gen_step c m with
      | (inl e, m) => (set_o_pc (OpusRaised e) s, m, [EvStep c])
      | (inr None, m) => (set_o_pc (OpusFor rest) s, m, [EvStep c])
      | (inr (Some tokens), m) =>
          let '(s, m, evs) := handle_tokens tokens rest s m in
          (s, m, EvStep c :: evs)
      end
  | OpusAwaitSend rest => (set_o_pc (OpusFor rest) s, m, [])
  | _ => (s, m, [])
  end.

(** ** The handler

    A resumption of a task reads and writes the lock ([locked] is
    [self.lock.locked()]), the streaming state of the model and the
    variables of its connection, and makes calls. *)

Definition outcome : Type := bool * model_t * session * list event.

(** Lines 185-189 (server.py 158-163): the block under [async with
    self.lock] up to the send of the handshake.  An exception from the
    send leaves the [async with], which releases the lock. *)
Definition enter_lock (m : model_t) (s : session) (evs : list event) : outcome :=
  let s := set_opus_reader OpusStreamReader (set_opus_writer OpusStreamWriter s) in
  let m := lm_gen_reset_streaming (ec_reset_streaming m) in
  let evs := evs ++ [EvAcquire; EvNewWriter; EvNewReader; EvEcReset; EvLmReset] in
  let '(r, t) := websocket_send [x00] (websocket s) in
  let s := set_websocket t s in
  match r with
  | None => (true, m, set_h_pc HAwaitHandshake s, evs ++ [EvWsSend [x00] true])
  | Some e => (false, m, set_h_pc (HRaised e) s,
               evs ++ [EvWsSend [x00] false; EvRelease])
  end.

(** What [asyncio.gather] has to report: nothing yet, the exception of
    the loop that raised first, or the return of all three. *)
Inductive gathered :=
| GatherPending
| GatherRaised (e : exn)
| GatherDone.

Definition gather (s : session) : gathered :=
  match gather_exc s with
  | Some e => GatherRaised e
  | None =>
      match o_pc s, r_pc s, s_pc s with
      | OpusDone, RecvDone, SendDone => GatherDone
      | _, _, _ => GatherPending
      end
  end.

(** The exception loop [t] ended with, if it did. *)
Definition loop_exc (t : task) (s : session) : option exn :=
  match t with
  | THandler => None
  | TRecv => match r_pc s with RecvRaised e => Some e | _ => None end
  | TOpus => match o_pc s with OpusRaised e => Some e | _ => None end
  | TSend => match s_pc s with SendRaised e => Some e | _ => None end
  end.

(** [asyncio.gather] is called without [return_exceptions]: when a loop
    ends with an exception and the future of [gather] has none yet, the
    exception is set on it; the exception of a loop that raises later is
    dropped, and no loop is cancelled. *)
Definition settle (t : task) (s : session) : session :=
  match gather_exc s, loop_exc t s with
  | None, Some e => set_gather_exc (Some e) s
  | _, _ => s
  end.

(** One resumption of the handler. *)
Definition handler_step (locked : bool) (m : model_t) (s : session) : outcome :=
  match h_pc s with
  | HStart => (locked, m, set_h_pc HAccepted s, [])
  | HAccepted =>
      let s := set_close false s in
      let evs := [EvLog LvlInfo MsgAcceptedConnection] in
      if locked then (locked, m, set_h_pc HWaitLock s, evs)
      else enter_lock m s evs
  | HWaitLock => if locked then (locked, m, s, []) else enter_lock m s []
  | HAwaitHandshake =>
      (locked, m,
       set_h_pc HGather
         (set_gather_exc None
            (set_o_pc OpusStart (set_r_pc RecvWaiting (set_s_pc SendStart s)))),
       [])
  | HGather =>
      match gather s with
      | GatherPending => (locked, m, s, [])
      | GatherRaised e => (false, m, set_h_pc (HRaised e) s, [EvRelease])
      | GatherDone =>
          (false, m, set_h_pc HDone s,
           [EvRelease; EvLog LvlInfo MsgDoneWithConnection])
      end
  | HDone | HRaised _ => (locked, m, s, [])
  end.

(** One resumption of task [t]. *)
Definition task_step (v : variant) (t : task) (locked : bool) (m : model_t)
    (s : session) : outcome :=
  match t with
  | THandler => handler_step locked m s
  | TRecv => let '(s, evs) := recv_step v s in (locked, m, settle TRecv s, evs)
  | TOpus => let '(s, m, evs) := opus_step s m in (locked, m, settle TOpus s, evs)
  | TSend => let '(s, evs) := send_step s in (locked, m, settle TSend s, evs)
  end.

(** ** The process

    [lock] and [model] are shared by all connections; [trace] lists every
    call made so far, oldest first, with the connection and the task that
    made it. *)

Record server := {
  lock : bool;
  model : model_t;
  sessions : list session;
  trace : list (nat * task * event)
}.

Definition tag (i : nat) (t : task) (evs : list event)
  : list (nat * task * event) :=
  map (fun e => (i, t, e)) evs.

(** A task is in the middle of a block when it is not suspended in an
    await: only [opus_loop] has such program points. *)
Definition busy (s : session) : bool :=
  match o_pc s with
  | OpusWhile | OpusFor _ => true
  | _ => false
  end.

(** Cooperative scheduling: while a task is in the middle of a block no
    other task runs. *)
Definition may_run (sv : server) (i : nat) (t : task) : bool :=
  if existsb busy (sessions sv) then
    match t, sessions sv !! i with
    | TOpus, Some s => busy s
    | _, _ => false
    end
  else true.

(** A new connection: the library calls the handler.  With websockets the
    handler starts at its first line; with aiohttp it first awaits
    [ws.prepare]. *)
Definition new_session (v : variant) (w : websocket_t) : session :=
  {| websocket := w; close := false;
     opus_reader := OpusStreamReader; opus_writer := OpusStreamWriter;
     all_pcm_data := None;
     h_pc := match v with ServerOpus => HAccepted | ServerAiohttp => HStart end;
     r_pc := RecvIdle; o_pc := OpusIdle; s_pc := SendIdle;
     gather_exc := None |}.

(** What the event loop does next. *)
Inductive action :=
| Accept (w : websocket_t)     (* a client connects over transport [w] *)
| Run (i : nat) (t : task).    (* task [t] of connection [i] is resumed *)

(** The process after a client connected over [w]. *)
Definition accepted (v : variant) (sv : server) (w : websocket_t) : server :=
  {| lock := lock sv; model := model sv;
     sessions := sessions sv ++ [new_session v w];
     trace := trace sv |}.

(** The process after task [t] of connection [i] ran: the new lock, model
    and variables of the connection are stored and the calls appended. *)
Definition commit (sv : server) (i : nat) (t : task) (o : outcome) : server :=
  let '(l, m, s, evs) := o in
  {| lock := l; model := m; sessions := <[i := s]> (sessions sv);
     trace := trace sv ++ tag i t evs |}.

Definition server_step (v : variant) (sv : server) (a : action) : server :=
  match a with
  | Accept w => if existsb busy (sessions sv) then sv else accepted v sv w
  | Run i t =>
      if may_run sv i t then
        match sessions sv !! i with
        | None => sv
        | Some s => commit sv i t (task_step v t (lock sv) (model sv) s)
        end
      else sv
  end.

(** The process after start-up: the lock is free, the model is in the
    state [m0] the warm-up left it in, nobody is connected. *)
Definition init (m0 : model_t) : server :=
  {| lock := false; model := m0; sessions := []; trace := [] |}.

Definition exec (v : variant) (sch : list action) (sv : server) : server :=
  fold_left (server_step v) sch sv.

Definition run (v : variant) (m0 : model_t) (sch : list action) : server :=
  exec v sch (init m0).

(** ** Observations on states and traces *)

(** Connection [i] is inside [async with self.lock]. *)
Definition holding (s : session) : bool :=
  match h_pc s with
  | HAwaitHandshake | HGather => true
  | _ => false
  end.

(** The number of connections inside [async with self.lock]. *)
Fixpoint holders (l : list session) : nat :=
  match l with
  | [] => 0
  | s :: l' => (if holding s then 1 else 0) + holders l'
  end.

(** The program points of [opus_loop] at the boundary of an iteration of
    its [while True]: before the first one, in the sleep, after the
    return. *)
Definition at_iteration_end (s : session) : bool :=
  match o_pc s with
  | OpusIdle | OpusStart | OpusSleep | OpusDone => true
  | _ => false
  end.

(** The program points where [opus_loop] is suspended in an await. *)
Definition opus_suspended (s : session) : bool :=
  match o_pc s with
  | OpusStart | OpusSleep | OpusAwaitSend _ => true
  | _ => false
  end.

(** The chunks connection [i] passed to [encode], oldest first. *)
Fixpoint encoded (i : nat) (tr : list (nat * task * event)) : list (list sample) :=
  match tr with
  | [] => []
  | (j, _, EvEncode chunk) :: tr' =>
      if j =? i then chunk :: encoded i tr' else encoded i tr'
  | _ :: tr' => encoded i tr'
  end.

(** The chunks connection [i] drained from the adapter, oldest first. *)
Fixpoint drained (i : nat) (tr : list (nat * task * event)) : list (list sample) :=
  match tr with
  | [] => []
  | (j, _, EvReadPcm pcm) :: tr' =>
      if j =? i then pcm :: drained i tr' else drained i tr'
  | _ :: tr' => drained i tr'
  end.

(** The calls of connection [i] other than [log], oldest first. *)
Fixpoint calls (i : nat) (tr : list (nat * task * event)) : list (task * event) :=
  match tr with
  | [] => []
  | (_, _, EvLog _ _) :: tr' => calls i tr'
  | (j, t, e) :: tr' => if j =? i then (t, e) :: calls i tr' else calls i tr'
  end.

(** The first byte of a message, as [message[0]] reads it. *)
Definition kind_of (msg : bytes) : option Z :=
  match msg with
  | [] => None
  | k :: _ => Some (Z.of_N (Byte.to_N k))
  end.

(** The calls every session starts with, in this order. *)
Definition startup : list (task * event) :=
  [(THandler, EvAcquire); (THandler, EvNewWriter); (THandler, EvNewReader);
   (THandler, EvEcReset); (THandler, EvLmReset);
   (THandler, EvWsSend [x00] true)].

(** The calls of a session whose handshake could not be sent. *)
Definition startup_failed : list (task * event) :=
  [(THandler, EvAcquire); (THandler, EvNewWriter); (THandler, EvNewReader);
   (THandler, EvEcReset); (THandler, EvLmReset);
   (THandler, EvWsSend [x00] false); (THandler, EvRelease)].

(** A call that belongs to the start of a session: taking the lock,
    creating the adapter, resetting the model, sending a kind-0 message. *)
Definition is_startup_call (c : task * event) : bool :=
  match snd c with
  | EvAcquire | EvNewWriter | EvNewReader | EvEcReset | EvLmReset => true
  | EvWsSend msg _ =>
      match kind_of msg with
      | Some k => (k =? 0)%Z
      | None => false
      end
  | _ => false
  end.

(** A call of one of the three loops, a call that processes a frame, or
    the send of a kind-1 or kind-2 message. *)
Definition is_stream_call (c : task * event) : bool :=
  match c with
  | (TRecv, _) | (TOpus, _) | (TSend, _) => true
  | (_, EvEncode _) | (_, EvStep _) | (_, EvDecode _) => true
  | (_, EvWsSend msg _) =>
      match kind_of msg with
      | Some k => (k =? 1)%Z || (k =? 2)%Z
      | None => false
      end
  | _ => false
  end.

(** Who may send what: the handler the handshake, [opus_loop] the text of
    a token, [send_loop] audio. *)
Definition sender_of (t : task) (msg : bytes) : Prop :=
  match t with
  | THandler => msg = [x00]
  | TRecv => False
  | TOpus => exists tk b, msg = x02 :: b
                          /\ utf8 (replace_marker (id_to_piece tk)) = Some b
  | TSend => exists b, msg = x01 :: b
  end.

(** The calls each task makes. *)
Definition emits (t : task) (e : event) : Prop :=
  match e with
  | EvLog _ _ => True
  | EvAcquire | EvRelease | EvNewWriter | EvNewReader | EvEcReset | EvLmReset =>
      t = THandler
  | EvWsSend msg _ => sender_of t msg
  | EvAppendBytes _ => t = TRecv
  | EvReadPcm _ | EvEncode _ | EvStep _ | EvDecode _ | EvAppendPcm _ => t = TOpus
  | EvReadBytes _ => t = TSend
  end.

(** The loops have not been created. *)
Definition idle (s : session) : Prop :=
  r_pc s = RecvIdle /\ o_pc s = OpusIdle /\ s_pc s = SendIdle.

(** The handler has not reached [asyncio.gather]. *)
Definition before_gather (s : session) : bool :=
  match h_pc s with
  | HStart | HAccepted | HWaitLock | HAwaitHandshake => true
  | _ => false
  end.

(** Where the calls of connection [i] stand, by the program point of its
    handler: none before the lock is taken; the start-up calls once the
    handshake is on its way; the start-up calls followed by calls that are
    not start-up calls from [gather] on.  A handler that raised either
    failed to send the handshake, and then no loop was ever created, or
    raised out of [gather]. *)
Definition startup_inv (i : nat) (s : session) (tr : list (nat * task * event)) : Prop :=
  match h_pc s with
  | HStart | HAccepted | HWaitLock => calls i tr = [] /\ idle s
  | HAwaitHandshake => calls i tr = startup /\ idle s
  | HGather | HDone =>
      exists rest, calls i tr = startup ++ rest
                   /\ Forall (fun c => is_startup_call c = false) rest
  | HRaised _ =>
      (calls i tr = startup_failed /\ idle s)
      \/ exists rest, calls i tr = startup ++ rest
                      /\ Forall (fun c => is_startup_call c = false) rest
  end.

(** The invariant of the accumulation buffer of connection [i]. *)
Definition buffer_inv (i : nat) (s : session) (tr : list (nat * task * event)) : Prop :=
  (o_pc s = OpusIdle \/ o_pc s = OpusStart ->
   encoded i tr = [] /\ drained i tr = [] /\ buffer s = [])
  /\ concat (encoded i tr) ++ buffer s = concat (drained i tr)
  /\ (before_gather s = true -> o_pc s = OpusIdle)
  /\ Forall (fun ch => length ch = frame_size) (encoded i tr)
  /\ (0 < frame_size -> at_iteration_end s = true -> length (buffer s) < frame_size).

(** The invariant of the lock: the lock is held exactly when one
    connection is inside [async with self.lock]; every acquire in the
    trace is followed by a release of the same connection unless that
    connection is still inside; between the acquire of one connection and
    the later handshake of another lies the release of the first. *)
Definition lock_inv (sv : server) : Prop :=
  holders (sessions sv) = (if lock sv then 1 else 0)
  /\ (forall p i,
        trace sv !! p = Some (i, THandler, EvAcquire) ->
        (exists r, p < r /\ trace sv !! r = Some (i, THandler, EvRelease))
        \/ (exists s, sessions sv !! i = Some s /\ holding s = true))
  /\ (forall p q i j ok,
        i <> j ->
        trace sv !! p = Some (i, THandler, EvAcquire) ->
        trace sv !! q = Some (j, THandler, EvWsSend [x00] ok) ->
        p < q ->
        exists r, p < r /\ r < q /\ trace sv !! r = Some (i, THandler, EvRelease)).

(** A call of the model raises [e] in the step [opus_loop] is about to
    make: [encode] on the next frame, [step] on the next column, or
    [decode] on the tokens of that step. *)
Definition model_raises (s : session) (m : model_t) (e : exn) : Prop :=
  (o_pc s = OpusWhile
   /\ exists a, all_pcm_data s = Some a /\ frame_size <= length a
                /\ fst (ec_encode (take frame_size a) m) = inl e)
  \/ (exists c rest, o_pc s = OpusFor (c :: rest)
                     /\ fst (lm_gen_step c m) = inl e)
  \/ (exists c rest tokens m1,
        o_pc s = OpusFor (c :: rest)
        /\ lm_gen_step c m = (inr (Some tokens), m1)
        /\ length tokens = dep_q + 1
        /\ fst (ec_decode (drop 1 tokens) m1) = inl e).

End Model.

(** ** A small instance to run the model on

    Samples and code columns are integers and the opus codec is the
    identity on bytes.  A frame has two samples; [encode] yields one
    column, the sum of the frame, and fails on a frame that starts with
    255; a step yields nothing for column 1 and otherwise the column as
    text token and as its single audio token; every piece is "▁hi".  The
    transport delivers a scripted list of turns and never fails to send. *)

Definition toy_encode (chunk : list Z) (m : nat) : (exn + list Z) * nat :=
  match chunk with
  | 255%Z :: _ => (inl (ExternalError 0), m)
  | _ => (inr [fold_right Z.add 0%Z chunk], S m)
  end.

Definition toy_step (c : Z) (m : nat) : (exn + option (list Z)) * nat :=
  if (c =? 1)%Z then (inr None, S m) else (inr (Some [c; c]), S m).

Definition toy_next (w : list incoming) : incoming * list incoming :=
  match w with
  | [] => (InEnd, [])
  | x :: w' => (x, w')
  end.

Definition toy : Collaborators := {|
  sample := Z;
  codes := Z;
  OpusStreamReader_t := list Z;
  OpusStreamWriter_t := bytes;
  model_t := nat;
  websocket_t := list incoming;
  OpusStreamReader := [];
  OpusStreamWriter := [];
  append_bytes := fun b r => r ++ map (fun k => Z.of_N (Byte.to_N k)) b;
  read_pcm := fun r => (r, []);
  append_pcm := fun p w => w ++ map (fun z => byte_of_N (Z.to_N z)) p;
  read_bytes := fun w => (w, []);
  frame_size := 2;
  dep_q := 1;
  ec_encode := toy_encode;
  lm_gen_step := toy_step;
  ec_decode := fun toks m => (inr toks, m);
  ec_reset_streaming := fun _ => 0;
  lm_gen_reset_streaming := fun _ => 0;
  id_to_piece := fun _ => [9601%N; 104%N; 105%N];
  websocket_send := fun _ w => (None, w);
  websocket_next := toy_next
|}.

Definition binary (b : bytes) : incoming :=
  InMsg {| msg_type := BINARY; msg_data := PyBytes b |}.

(** A client sends five samples in one audio message; the schedule runs
    the handler up to [gather], the message through [recv_loop], and
    [opus_loop] up to the send of the text of the first frame. *)
Definition sch_text : list action :=
  [Accept (E := toy) [binary [x01; x05; x06; x07; x08; x09]];
   Run 0 THandler; Run 0 THandler; Run 0 TRecv;
   Run 0 TOpus; Run 0 TOpus; Run 0 TOpus; Run 0 TOpus].

(** A client sends a frame that makes [encode] fail; the schedule starts
    [send_loop], runs [opus_loop] into the failure and then the handler. *)
Definition sch_model_failure : list action :=
  [Accept (E := toy) [binary [x01; xff; xff]];
   Run 0 THandler; Run 0 THandler; Run 0 TRecv; Run 0 TSend;
   Run 0 TOpus; Run 0 TOpus; Run 0 TOpus; Run 0 THandler].

(** Two clients connect one after the other; the first one closes at
    once. *)
Definition sch_two : list action :=
  [Accept (E := toy) []; Accept (E := toy) [];
   Run 0 THandler; Run 1 THandler; Run 0 THandler;
   Run 0 TRecv; Run 0 TOpus; Run 0 TSend; Run 0 THandler;
   Run 1 THandler; Run 1 THandler].

(** A client sends one audio byte; the schedule runs the handler up to
    [gather] and the message through [recv_loop]. *)
Definition sch_audio : list action :=
  [Accept (E := toy) [binary [x01; x05]];
   Run 0 THandler; Run 0 THandler; Run 0 TRecv].

(** A connection whose loops are running, with [w] still to come from the
    client, [a] in the accumulation buffer and [opus_loop] at [p]. *)
Definition toy_session (w : list incoming) (a : option (list Z))
    (p : opus_pc (E := toy)) : session (E := toy) :=
  @Build_session toy w false [] [] a HGather RecvWaiting p SendSleep None.





Definition text_frame : WSMessage :=
  {| msg_type := TEXT; msg_data := PyStr [104%N; 105%N] |}.

Definition empty_frame : WSMessage :=
  {| msg_type := BINARY; msg_data := PyBytes [] |}.

Definition unknown_frame : WSMessage :=
  {| msg_type := BINARY; msg_data := PyBytes [x07; x01] |}.


(** * The rest of the servers and the benchmark *)

(** ** [ServerState.warmup]

    Four frames of silence are passed through [encode], [step] and
    [decode] and the output is dropped; [zero] is the sample
    [torch.zeros] fills the frame with.  The result is the exception that
    ended the warm-up, if any, the state of the model and the calls made.
    The final [torch.cuda.synchronize()] is left out. *)

Section Warmup.
Context {E : Collaborators}.

(** [for c in range(codes.shape[-1])], lines 103-107 of server_opus.py
    (68-72 of server.py). *)
Fixpoint warmup_columns (cs : list codes) (m : model_t)
  : option exn * model_t * list event :=
  match cs with
  | [] => (None, m, [])
  | c :: cs' =>
      match lm_gen_step c m with
      | (inl e, m) => (Some e, m, [EvStep c])
      | (inr None, m) =>
          let '(r, m, evs) := warmup_columns cs' m in
          (r, m, EvStep c :: evs)
      | (inr (Some tokens), m) =>
          let audio := drop 1 tokens in
          match ec_decode audio m with
          | (inl e, m) => (Some e, m, [EvStep c; EvDecode audio])
          | (inr _, m) =>
              let '(r, m, evs) := warmup_columns cs' m in
              (r, m, EvStep c :: EvDecode audio :: evs)
          end
      end
  end.

(** [for chunk in range(4)] with [n] iterations to go. *)
Fixpoint warmup_chunks (n : nat) (zero : sample) (m : model_t)
  : option exn * model_t * list event :=
  match n with
  | 0 => (None, m, [])
  | S n' =>
      let chunk := replicate frame_size zero in
      match ec_encode chunk m with
      | (inl e, m) => (Some e, m, [EvEncode chunk])
      | (inr cs, m) =>
          match warmup_columns cs m with
          | (Some e, m, evs) => (Some e, m, EvEncode chunk :: evs)
          | (None, m, evs) =>
              let '(r, m, evs') := warmup_chunks n' zero m in
              (r, m, EvEncode chunk :: evs ++ evs')
          end
      end
  end.

Definition warmup (zero : sample) (m : model_t)
  : option exn * model_t * list event :=
  warmup_chunks 4 zero m.

(** The chunks passed to [encode], the columns passed to [step] and the
    number of [decode] calls among some calls. *)
Fixpoint encode_calls (evs : list event) : list (list sample) :=
  match evs with
  | [] => []
  | EvEncode chunk :: evs' => chunk :: encode_calls evs'
  | _ :: evs' => encode_calls evs'
  end.

Fixpoint step_calls (evs : list event) : list codes :=
  match evs with
  | [] => []
  | EvStep c :: evs' => c :: step_calls evs'
  | _ :: evs' => step_calls evs'
  end.

Fixpoint decode_calls (evs : list event) : list (list Z) :=
  match evs with
  | [] => []
  | EvDecode toks :: evs' => toks :: decode_calls evs'
  | _ :: evs' => decode_calls evs'
  end.

(** ** src/scripts/moshi_benchmark.py: [streaming_test]

    [main_audio] and [main_text] are the two lists the steps append to.
    The batch size is 1, as the script sets it.  Prints, timers and CUDA
    events are left out. *)

Record bench := {
  main_audio : list (list sample);
  main_text : list pystr
}.

(** [run_step], lines 65-103. *)
Definition run_step (zero : sample) (b : bench) (m : model_t)
  : option exn * bench * model_t * list event :=
  let chunk := replicate 1920 zero in
  match ec_encode chunk m with
  | (inl e, m) => (Some e, b, m, [EvEncode chunk])
  | (inr cs, m) =>
      match cs with
      | [c] =>
          match lm_gen_step c m with
          | (inl e, m) => (Some e, b, m, [EvEncode chunk; EvStep c])
          | (inr None, m) => (None, b, m, [EvEncode chunk; EvStep c])
          | (inr (Some tokens), m) =>
              match tokens with
              | [] => (Some IndexError, b, m, [EvEncode chunk; EvStep c])
              | text_token :: audio_tokens =>
                  match ec_decode audio_tokens m with
                  | (inl e, m) =>
                      (Some e, b, m, [EvEncode chunk; EvStep c; EvDecode audio_tokens])
                  | (inr main_pcm, m) =>
                      let audio := main_audio b ++ [main_pcm] in
                      let text :=
                        if reserved text_token then main_text b
                        else main_text b ++ [token_text text_token] in
                      (None, {| main_audio := audio; main_text := text |}, m,
                       [EvEncode chunk; EvStep c; EvDecode audio_tokens])
                  end
              end
          end
      | _ => (Some AssertionError, b, m, [EvEncode chunk])
      end
  end.

(** [for step in range(n): run_step()] *)
Fixpoint run_steps (n : nat) (zero : sample) (b : bench) (m : model_t)
  : option exn * bench * model_t * list event :=
  match n with
  | 0 => (None, b, m, [])
  | S n' =>
      match run_step zero b m with
      | (Some e, b, m, evs) => (Some e, b, m, evs)
      | (None, b, m, evs) =>
          let '(r, b, m, evs') := run_steps n' zero b m in
          (r, b, m, evs ++ evs')
      end
  end.

(** [streaming_test] up to the concatenation of the audio: [steps] steps
    ([range] of a negative number is empty), then five more under the
    profiler when [--profile] is given. *)
Definition streaming_test (steps : Z) (profile : bool) (zero : sample)
    (m : model_t) : option exn * bench * model_t * list event :=
  match run_steps (Z.to_nat steps) zero {| main_audio := []; main_text := [] |} m with
  | (Some e, b, m, evs) => (Some e, b, m, evs)
  | (None, b, m, evs) =>
      if profile then
        let '(r, b, m, evs') := run_steps 5 zero b m in
        (r, b, m, evs ++ evs')
      else (None, b, m, evs)
  end.

End Warmup.

(** ** Start-up: the command line

    [parse_args] either leaves the process ([-h], an unknown or ambiguous
    option or a value of the wrong type raise SystemExit, with status 0
    or 2) or returns a namespace with one attribute per [add_argument],
    named after the first long option string without its leading dashes
    and with every other dash turned into an underscore; the value comes
    from the command line or from the default.  argparse is not part of
    the repository: what it makes of the command line is taken as given,
    [ParseExit] or [ParseOk] with the value of each option.  Reading an
    attribute the namespace does not have raises AttributeError. *)

Inductive pyval :=
| PNone
| PStr (s : string)
| PInt (n : Z)
| PBool (b : bool).

Fixpoint lstrip_dashes (s : string) : string :=
  match s with
  | String "-" s' => lstrip_dashes s'
  | _ => s
  end.

Fixpoint dashes_to_underscores (s : string) : string :=
  match s with
  | EmptyString => EmptyString
  | String c s' =>
      String (if Ascii.eqb c "-" then "_"%char else c) (dashes_to_underscores s')
  end.

Definition dest (flag : string) : string :=
  dashes_to_underscores (lstrip_dashes flag).

Inductive parsed :=
| ParseExit (code : Z)
| ParseOk (values : string -> pyval).

Definition namespace (flags : list string) (values : string -> pyval)
  : gmap string pyval :=
  list_to_map (map (fun f => (dest f, values (dest f))) flags).

Definition parse_args (flags : list string) (p : parsed)
  : Z + gmap string pyval :=
  match p with
  | ParseExit code => inl code
  | ParseOk values => inr (namespace flags values)
  end.

Definition getattr (args : gmap string pyval) (name : string) : exn + pyval :=
  match args !! name with
  | Some v => inr v
  | None => inl AttributeError
  end.

(** [if x:] *)
Definition truthy (x : pyval) : bool :=
  match x with
  | PNone => false
  | PStr s => negb (String.eqb s "")
  | PInt n => negb (n =? 0)%Z
  | PBool b => b
  end.

(** The [add_argument] calls of the two servers, in order. *)
Definition server_flags : list string :=
  ["--host"; "--port"; "--static"; "--gradio_tunnel"; "--gradio_tunnel_token";
   "--tokenizer-name"; "--moshi-name"; "--mimi-name"; "--hf-repo"; "--device"]%string.

Definition server_opus_flags : list string :=
  ["--host"; "--port"; "--tokenizer"; "--moshi-weights"; "--mimi-weights";
   "--hf-repo"]%string.

(** What start-up does besides reading [args]; [BootStaticDist] is the
    static content taken from the [dist] directory beside the downloaded
    [dist.tgz]. *)
Inductive boot_event :=
| BootSeedAll (seed : Z)
| BootImportGradio
| BootTokenUrlsafe
| BootDownload (repo : pyval) (file : string)
| BootResolve (name repo : pyval)
| BootLoadMimi (path device : pyval)
| BootLoadTokenizer (path : pyval)
| BootLoadMoshi (path device : pyval)
| BootServerState
| BootWarmup
| BootStatic (path : pyval)
| BootStaticDist
| BootSetupTunnel (port : pyval)
| BootServe (host port : pyval).

(** How start-up ends: an exception, [sys.exit], or the server running. *)
Inductive boot_end :=
| BootRaised (e : exn)
| BootExit (code : Z)
| BootServing.

(** [args.name], then the rest; [evs] are the calls made so far. *)
Definition read (args : gmap string pyval) (name : string)
    (evs : list boot_event) (k : pyval -> boot_end * list boot_event)
  : boot_end * list boot_event :=
  match getattr args name with
  | inl e => (BootRaised e, evs)
  | inr x => k x
  end.

(** [main] of src/moshi/moshi/server.py from "loading mimi" on (lines
    206-248).  The calls are taken to return; a checkpoint is named by
    what [resolve_model_checkpoint] was given. *)
Definition server_main_models (args : gmap string pyval) (setup_tunnel : bool)
    (evs : list boot_event) : boot_end * list boot_event :=
  read args "mimi_name" evs (fun mimi_name =>
  read args "hf_repo" evs (fun hf_repo =>
  let evs := evs ++ [BootResolve mimi_name hf_repo] in
  read args "device" evs (fun device =>
  let evs := evs ++ [BootLoadMimi mimi_name device] in
  read args "tokenizer_name" evs (fun tokenizer_name =>
  read args "hf_repo" evs (fun hf_repo =>
  let evs := evs ++ [BootResolve tokenizer_name hf_repo;
                     BootLoadTokenizer tokenizer_name] in
  read args "moshi_name" evs (fun moshi_name =>
  read args "hf_repo" evs (fun hf_repo =>
  let evs := evs ++ [BootResolve moshi_name hf_repo] in
  read args "device" evs (fun device =>
  let evs := evs ++ [BootLoadMoshi moshi_name device] in
  read args "device" evs (fun device =>
  let evs := evs ++ [BootServerState; BootWarmup] in
  read args "static" evs (fun static =>
  let static_part (k : list boot_event -> boot_end * list boot_event) :=
    match static with
    | PNone =>
        read args "hf_repo" evs (fun hf_repo =>
        k (evs ++ [BootDownload hf_repo "dist.tgz"; BootStaticDist]))
    | _ =>
        read args "static" evs (fun static =>
        match static with
        | PStr "none" => k evs
        | _ => read args "static" evs (fun static => k (evs ++ [BootStatic static]))
        end)
    end in
  static_part (fun evs =>
  let tunnel_part (k : list boot_event -> boot_end * list boot_event) :=
    if setup_tunnel then
      read args "port" evs (fun port => k (evs ++ [BootSetupTunnel port]))
    else k evs in
  tunnel_part (fun evs =>
  read args "host" evs (fun host =>
  read args "port" evs (fun port =>
  read args "port" evs (fun port' =>
  (BootServing, evs ++ [BootServe host port'])))))))))))))))).

(** [main] of server.py from its first line (169-204);
    [gradio_installed] tells whether [from gradio import networking]
    succeeds. *)
Definition server_main (p : parsed) (gradio_installed : bool)
  : boot_end * list boot_event :=
  match parse_args server_flags p with
  | inl code => (BootExit code, [])
  | inr args =>
      let evs := [BootSeedAll 42424242] in
      read args "gradio" evs (fun gradio =>
      if truthy gradio then
        if gradio_installed then
          let evs := evs ++ [BootImportGradio] in
          read args "gradio_tunnel_secret" evs (fun secret =>
          match secret with
          | PNone => server_main_models args true (evs ++ [BootTokenUrlsafe])
          | _ =>
              read args "gradio_tunnel_secret" evs (fun _ =>
              server_main_models args true evs)
          end)
        else (BootExit 1, evs ++ [BootImportGradio])
      else server_main_models args false evs)
  end.

(** [if args.name is None: args.name = hf_hub_download(args.hf_repo, file)],
    lines 54-59 of src/server_opus.py; [download] is [hf_hub_download],
    which returns the path of the file. *)
Definition default_from_hub (download : pyval -> string -> string)
    (name file : string) (args : gmap string pyval) (evs : list boot_event)
    (k : gmap string pyval -> list boot_event -> boot_end * list boot_event)
  : boot_end * list boot_event :=
  read args name evs (fun x =>
  match x with
  | PNone =>
      read args "hf_repo" evs (fun hf_repo =>
      k (<[name := PStr (download hf_repo file)]> args)
        (evs ++ [BootDownload hf_repo file]))
  | _ => k args evs
  end).

(** src/server_opus.py from the parsing of the command line to [serve]:
    lines 52-73, [ServerState.__init__] (84-97) and [main] (194-203).
    The calls and the import of gradio are taken to return. *)
Definition server_opus_boot (p : parsed)
    (download : pyval -> string -> string) : boot_end * list boot_event :=
  match parse_args server_opus_flags p with
  | inl code => (BootExit code, [])
  | inr args =>
  default_from_hub download "tokenizer" "tokenizer_spm_32k_3.model" args []
    (fun args evs =>
  default_from_hub download "moshi_weights" "moshiko_pt_301e30bf@120.safetensors"
    args evs (fun args evs =>
  default_from_hub download "mimi_weights"
    "tokenizer-e351c8d8-checkpoint125.safetensors" args evs (fun args evs =>
  let evs := evs ++ [BootSeedAll 42424242] in
  read args "mimi_weights" evs (fun mimi_weights =>
  let evs := evs ++ [BootLoadMimi mimi_weights (PStr "cuda:0")] in
  read args "tokenizer" evs (fun tokenizer =>
  let evs := evs ++ [BootLoadTokenizer tokenizer] in
  read args "moshi_weights" evs (fun moshi_weights =>
  let evs := evs ++ [BootLoadMoshi moshi_weights (PStr "cuda:0");
                     BootServerState; BootWarmup] in
  let evs := evs ++ [BootImportGradio] in
  read args "port" evs (fun port =>
  let evs := evs ++ [BootSetupTunnel port] in
  read args "host" evs (fun host =>
  read args "port" evs (fun port =>
  read args "host" evs (fun host' =>
  read args "port" evs (fun port' =>
  (BootServing, evs ++ [BootServe host' port']))))))))))))
  end.

(** ** Further observations on sessions and messages *)

Section Shape.
Context {E : Collaborators}.

(** [recv_loop] has returned or raised. *)
Definition recv_ended (s : session) : Prop :=
  r_pc s = RecvDone \/ exists e, r_pc s = RecvRaised e.

(** One of the three loops has raised. *)
Definition loop_raised (s : session) : Prop :=
  (exists e, o_pc s = OpusRaised e) \/ (exists e, r_pc s = RecvRaised e)
  \/ (exists e, s_pc s = SendRaised e).

(** How the variables of a connection hang together: the loops exist
    only from [gather] on; [close] is set exactly when [recv_loop] has
    ended; a handler that raised did so before creating the loops or
    because one of them raised; under websockets a WebSocketException
    never ends [recv_loop] with an exception. *)
Definition session_shape (v : variant) (s : session) : Prop :=
  (before_gather s = true -> idle s)
  /\ (close s = true <-> recv_ended s)
  /\ (forall e, h_pc s = HRaised e -> idle s \/ loop_raised s)
  /\ (v = ServerOpus -> r_pc s <> RecvRaised WebSocketException).

(** The future of [gather] and the loops: the exception on the future is
    the exception of a loop that raised, and the future has one as soon as
    a loop has raised. *)
Definition gather_inv (s : session) : Prop :=
  (forall e, gather_exc s = Some e ->
             o_pc s = OpusRaised e \/ r_pc s = RecvRaised e \/ s_pc s = SendRaised e)
  /\ (gather_exc s = None -> ~ loop_raised s).

(** The three shapes of a message the server sends: the handshake, audio
    with at least one byte, the text of a token that is not reserved. *)
Definition well_formed (msg : bytes) : Prop :=
  msg = [x00]
  \/ (exists b, msg = x01 :: b /\ b <> [])
  \/ (exists tk b, msg = x02 :: b /\ reserved tk = false
                   /\ utf8 (replace_marker (id_to_piece tk)) = Some b).

(** The schedule that ends connection [i] once the client is gone: each
    loop is resumed once, then the handler. *)
Definition teardown (i : nat) : list action :=
  [Run i TRecv; Run i TOpus; Run i TSend; Run i THandler].

End Shape.

(** A client connects and leaves at once while another one waits: the
    schedule runs the first connection up to its sleeps. *)
Definition sch_idle : list action :=
  [Accept (E := toy) []; Run 0 THandler; Run 0 THandler;
   Run 0 TOpus; Run 0 TSend].

(** The run of [sch_text] continued until [opus_loop] is back in its
    sleep: two frames encoded, one sample left. *)
Definition sch_frames : list action :=
  sch_text ++ [Run 0 TOpus; Run 0 TOpus; Run 0 TOpus; Run 0 TOpus;
               Run 0 TOpus; Run 0 TOpus; Run 0 TOpus].

(** The run of [sch_text] up to the first [encode]. *)
Definition sch_encode : list action :=
  [Accept (E := toy) [binary [x01; x05; x06; x07; x08; x09]];
   Run 0 THandler; Run 0 THandler; Run 0 TRecv; Run 0 TOpus; Run 0 TOpus].

(** The connection drops while [recv_loop] waits for a message. *)
Definition sch_dropped : list action :=
  [Accept (E := toy) [InRaise WebSocketException];
   Run 0 THandler; Run 0 THandler; Run 0 TRecv].

(** A connection whose client is gone, with audio still to be sent. *)
Definition closing_session : session (E := toy) :=
  @Build_session toy [] true [] [x05] None HGather RecvDone OpusSleep SendSleep
    None.
(** * Properties *)

Section Settle.
Context {E : Collaborators}.

Lemma settle_websocket t s : websocket (settle t s) = websocket s.
Proof. unfold settle. destruct (gather_exc s), (loop_exc t s); reflexivity. Qed.

Lemma settle_close t s : close (settle t s) = close s.
Proof. unfold settle. destruct (gather_exc s), (loop_exc t s); reflexivity. Qed.

Lemma settle_opus_reader t s : opus_reader (settle t s) = opus_reader s.
Proof. unfold settle. destruct (gather_exc s), (loop_exc t s); reflexivity. Qed.

Lemma settle_opus_writer t s : opus_writer (settle t s) = opus_writer s.
Proof. unfold settle. destruct (gather_exc s), (loop_exc t s); reflexivity. Qed.

Lemma settle_all_pcm_data t s : all_pcm_data (settle t s) = all_pcm_data s.
Proof. unfold settle. destruct (gather_exc s), (loop_exc t s); reflexivity. Qed.

Lemma settle_h_pc t s : h_pc (settle t s) = h_pc s.
Proof. unfold settle. destruct (gather_exc s), (loop_exc t s); reflexivity. Qed.

Lemma settle_r_pc t s : r_pc (settle t s) = r_pc s.
Proof. unfold settle. destruct (gather_exc s), (loop_exc t s); reflexivity. Qed.

Lemma settle_o_pc t s : o_pc (settle t s) = o_pc s.
Proof. unfold settle. destruct (gather_exc s), (loop_exc t s); reflexivity. Qed.

Lemma settle_s_pc t s : s_pc (settle t s) = s_pc s.
Proof. unfold settle. destruct (gather_exc s), (loop_exc t s); reflexivity. Qed.

Lemma settle_buffer t s : buffer (settle t s) = buffer s.
Proof. unfold buffer. rewrite settle_all_pcm_data. reflexivity. Qed.

(** A loop that has not raised leaves the future of [gather] alone. *)
Lemma settle_none t s : loop_exc t s = None -> settle t s = s.
Proof. unfold settle. intros ->. destruct (gather_exc s); reflexivity. Qed.

(** The future keeps the exception it has. *)
Lemma settle_gather_exc t s :
  gather_exc (settle t s)
  = match gather_exc s with
    | Some e => Some e
    | None => loop_exc t s
    end.
Proof.
  unfold settle. destruct (gather_exc s) eqn:Hg; [exact Hg|].
  destruct (loop_exc t s); [reflexivity|exact Hg].
Qed.

End Settle.

Create Rewrite HintDb settle.

#[global] Hint Rewrite @settle_websocket @settle_close @settle_opus_reader
  @settle_opus_writer @settle_all_pcm_data @settle_h_pc @settle_r_pc
  @settle_o_pc @settle_s_pc @settle_buffer : settle.

Ltac unsettle := autorewrite with settle in *.

Section Ingest.
Context {E : Collaborators}.

Lemma kind_is_audio k : (Z.of_N (Byte.to_N k) =? 1)%Z = true <-> k = x01.
Proof.
  split.
  - intros H. apply Z.eqb_eq in H.
    assert (Hn : Byte.to_N k = 1%N) by lia.
    apply (f_equal Byte.of_N) in Hn. rewrite Byte.of_to_N in Hn.
    simpl in Hn. congruence.
  - intros ->. reflexivity.
Qed.

Lemma recv_dispatch_audio p r :
  recv_dispatch (PyBytes (x01 :: p)) r
  = (append_bytes p r, [EvAppendBytes p], Continue).
Proof. reflexivity. Qed.

Lemma recv_dispatch_other k p r :
  k <> x01 ->
  recv_dispatch (PyBytes (k :: p)) r
  = (r, [EvLog LvlWarning (MsgUnknownKind (Z.of_N (Byte.to_N k)))], Continue).
Proof.
  intros Hk. unfold recv_dispatch. simpl.
  destruct (Z.of_N (Byte.to_N k) =? 1)%Z eqn:Hq; [|reflexivity].
  apply kind_is_audio in Hq. contradiction.
Qed.

Lemma recv_dispatch_not_bytes d r :
  (forall b, d <> PyBytes b) ->
  recv_dispatch d r = (r, [EvLog LvlError MsgUnsupportedType], Continue).
Proof. intros H. destruct d as [b| |]; [destruct (H b)|..]; reflexivity. Qed.

Lemma recv_dispatch_no_raise message r e :
  snd (recv_dispatch message r) <> Raise e.
Proof.
  destruct message as [[|k p]| |]; simpl; try discriminate.
  unfold recv_dispatch. simpl. destruct (_ =? _)%Z; discriminate.
Qed.

Lemma recv_body_no_raise v message r e : snd (recv_body v message r) <> Raise e.
Proof.
  destruct v; simpl; [apply recv_dispatch_no_raise|].
  destruct (msg_type message); try discriminate. apply recv_dispatch_no_raise.
Qed.

Lemma recv_body_dispatched v m r :
  dispatched v m -> recv_body v m r = recv_dispatch (msg_data m) r.
Proof. destruct v; simpl; [reflexivity|]. intros ->. reflexivity. Qed.

(** A turn of the [async for] whose body runs to its end leaves the loop
    waiting for the next message. *)
Lemma recv_step_continue v s m w r evs :
  r_pc s = RecvWaiting ->
  websocket_next (websocket s) = (InMsg m, w) ->
  recv_body v m (opus_reader s) = (r, evs, Continue) ->
  recv_step v s = (set_opus_reader r (set_websocket w s), evs).
Proof.
  intros Hpc Hnext Hbody. unfold recv_step. rewrite Hpc, Hnext. simpl.
  rewrite Hbody. reflexivity.
Qed.

Lemma recv_step_break v s m w r evs :
  r_pc s = RecvWaiting ->
  websocket_next (websocket s) = (InMsg m, w) ->
  recv_body v m (opus_reader s) = (r, evs, Break) ->
  recv_step v s
  = (set_r_pc RecvDone (set_close true (set_opus_reader r (set_websocket w s))),
     evs ++ [EvLog LvlInfo MsgConnectionClosed]).
Proof.
  intros Hpc Hnext Hbody. unfold recv_step. rewrite Hpc, Hnext. simpl.
  rewrite Hbody. reflexivity.
Qed.

(** C9: a binary message that is the single byte 1 is an audio message
    with an empty payload: the empty byte string is forwarded to
    [append_bytes]; the message is not treated as an empty message.  With
    websockets the frame type plays no role, with aiohttp the frame is
    BINARY. *)
Theorem audio_message_with_empty_payload (t : WSMsgType) (r : OpusStreamReader_t) :
  recv_body ServerOpus {| msg_type := t; msg_data := PyBytes [x01] |} r
  = (append_bytes [] r, [EvAppendBytes []], Continue)
  /\ recv_body ServerAiohttp {| msg_type := BINARY; msg_data := PyBytes [x01] |} r
     = (append_bytes [] r, [EvAppendBytes []], Continue).
Proof. split; reflexivity. Qed.

(** C6, as amended: for a message that reaches the dispatch, kind byte 1
    forwards exactly the bytes after the first one to [append_bytes]; any
    other kind byte and the zero-length message log a warning; a payload
    that is not [bytes] logs at level error, as does a frame of another
    type under aiohttp.  In all these cases nothing is raised, the message
    is dropped and the loop goes on waiting with [close] untouched.  Under
    aiohttp a frame of type ERROR or CLOSED ends the loop instead. *)
Theorem ingest_dispatch (v : variant) (s : session) (m : WSMessage) (w : websocket_t) :
  r_pc s = RecvWaiting ->
  websocket_next (websocket s) = (InMsg m, w) ->
  let s0 := set_websocket w s in
  (dispatched v m -> forall p, msg_data m = PyBytes (x01 :: p) ->
     recv_step v s
     = (set_opus_reader (append_bytes p (opus_reader s)) s0, [EvAppendBytes p]))
  /\ (dispatched v m -> forall k p, k <> x01 -> msg_data m = PyBytes (k :: p) ->
        recv_step v s
        = (s0, [EvLog LvlWarning (MsgUnknownKind (Z.of_N (Byte.to_N k)))]))
  /\ (dispatched v m -> msg_data m = PyBytes [] ->
        recv_step v s = (s0, [EvLog LvlWarning MsgEmptyMessage]))
  /\ (dispatched v m -> (forall b, msg_data m <> PyBytes b) ->
        recv_step v s = (s0, [EvLog LvlError MsgUnsupportedType]))
  /\ (v = ServerAiohttp -> msg_type m <> BINARY -> msg_type m <> ERROR ->
      msg_type m <> CLOSED ->
        recv_step v s = (s0, [EvLog LvlError (MsgUnexpectedType (msg_type m))]))
  /\ (v = ServerAiohttp -> msg_type m = ERROR ->
        recv_step v s
        = (set_r_pc RecvDone (set_close true s0),
           [EvLog LvlError MsgWsException; EvLog LvlInfo MsgConnectionClosed]))
  /\ (v = ServerAiohttp -> msg_type m = CLOSED ->
        recv_step v s
        = (set_r_pc RecvDone (set_close true s0),
           [EvLog LvlInfo MsgConnectionClosed]))
  /\ (forall e, r_pc (fst (recv_step v s)) <> RecvRaised e).
Proof.
  intros Hpc Hnext s0.
  assert (Hs0 : forall evs, recv_body v m (opus_reader s) = (opus_reader s, evs, Continue) ->
                            recv_step v s = (s0, evs)).
  { intros evs Hb. rewrite (recv_step_continue _ _ _ _ _ _ Hpc Hnext Hb).
    reflexivity. }
  repeat split.
  - intros Hd p Hp. apply (recv_step_continue _ _ _ _ _ _ Hpc Hnext).
    rewrite recv_body_dispatched, Hp by assumption. apply recv_dispatch_audio.
  - intros Hd k p Hk Hp. apply Hs0.
    rewrite recv_body_dispatched, Hp by assumption. apply recv_dispatch_other, Hk.
  - intros Hd Hp. apply Hs0.
    rewrite recv_body_dispatched, Hp by assumption. reflexivity.
  - intros Hd Hp. apply Hs0.
    rewrite recv_body_dispatched by assumption. apply recv_dispatch_not_bytes, Hp.
  - intros -> Hb He Hc. apply Hs0. simpl.
    destruct (msg_type m); try reflexivity; congruence.
  - intros -> Ht.
    rewrite (recv_step_break ServerAiohttp s m w (opus_reader s)
               [EvLog LvlError MsgWsException] Hpc Hnext).
    + reflexivity.
    + simpl. rewrite Ht. reflexivity.
  - intros -> Ht.
    rewrite (recv_step_break ServerAiohttp s m w (opus_reader s) [] Hpc Hnext).
    + reflexivity.
    + simpl. rewrite Ht. reflexivity.
  - intros e. unfold recv_step. rewrite Hpc, Hnext. simpl.
    destruct (recv_body v m (opus_reader s)) as [[r evs] c] eqn:Hb.
    destruct c as [| |e']; simpl; try (rewrite Hpc; discriminate); try discriminate.
    exfalso. apply (recv_body_no_raise v m (opus_reader s) e'). rewrite Hb. reflexivity.
Qed.

(** C7, as amended: the body of the [async for] never raises, whatever
    the message.  On a zero-length payload and on a payload that is not
    [bytes] it forwards nothing and leaves the reader as it was.  When
    such a message reaches the dispatch on its payload (always with
    websockets, in a BINARY frame with aiohttp) one line is logged, a
    warning for the zero-length payload and an error for the payload that
    is not [bytes], and the loop goes on waiting for the next message
    with nothing else changed.  Under aiohttp a frame that is not BINARY
    does not reach the dispatch: it is logged at level error and the loop
    goes on waiting, except that an ERROR frame is logged and ends the
    loop and a CLOSED frame ends it without a line of its own. *)
Theorem ingest_never_raises (v : variant) (m : WSMessage) (r : OpusStreamReader_t) :
  (forall e, snd (recv_body v m r) <> Raise e)
  /\ (msg_data m = PyBytes [] \/ (forall b, msg_data m <> PyBytes b) ->
      fst (fst (recv_body v m r)) = r
      /\ forall p, ~ In (EvAppendBytes p) (snd (fst (recv_body v m r))))
  /\ (forall s w,
        r_pc s = RecvWaiting ->
        websocket_next (websocket s) = (InMsg m, w) ->
        (dispatched v m -> msg_data m = PyBytes [] ->
         recv_step v s = (set_websocket w s, [EvLog LvlWarning MsgEmptyMessage]))
        /\ (dispatched v m -> (forall b, msg_data m <> PyBytes b) ->
            recv_step v s = (set_websocket w s, [EvLog LvlError MsgUnsupportedType]))
        /\ (v = ServerAiohttp -> msg_type m <> BINARY -> msg_type m <> ERROR ->
            msg_type m <> CLOSED ->
            recv_step v s
            = (set_websocket w s, [EvLog LvlError (MsgUnexpectedType (msg_type m))]))
        /\ (v = ServerAiohttp -> msg_type m = ERROR ->
            recv_step v s
            = (set_r_pc RecvDone (set_close true (set_websocket w s)),
               [EvLog LvlError MsgWsException; EvLog LvlInfo MsgConnectionClosed]))
        /\ (v = ServerAiohttp -> msg_type m = CLOSED ->
            recv_step v s
            = (set_r_pc RecvDone (set_close true (set_websocket w s)),
               [EvLog LvlInfo MsgConnectionClosed]))).
Proof.
  split; [intros e; apply recv_body_no_raise|]. split.
  - intros Hd.
    assert (Hdis : fst (fst (recv_dispatch (msg_data m) r)) = r
                   /\ forall p, ~ In (EvAppendBytes p)
                                   (snd (fst (recv_dispatch (msg_data m) r)))).
    { destruct Hd as [-> | Hn].
      - simpl. split; [reflexivity|]. intros p [H|[]]. discriminate.
      - rewrite recv_dispatch_not_bytes by assumption. simpl.
        split; [reflexivity|]. intros p [H|[]]. discriminate. }
    destruct v; simpl; [exact Hdis|].
    destruct (msg_type m); simpl; try exact Hdis;
      (split; [reflexivity|]; intros p; simpl; intuition discriminate).
  - intros s w Hpc Hnext.
    assert (Hs0 : forall evs,
              recv_body v m (opus_reader s) = (opus_reader s, evs, Continue) ->
              recv_step v s = (set_websocket w s, evs)).
    { intros evs Hb. rewrite (recv_step_continue _ _ _ _ _ _ Hpc Hnext Hb).
      reflexivity. }
    split; [|split; [|split; [|split]]].
    + intros Hd Hp. apply Hs0.
      rewrite recv_body_dispatched, Hp by assumption. reflexivity.
    + intros Hd Hp. apply Hs0.
      rewrite recv_body_dispatched by assumption. apply recv_dispatch_not_bytes, Hp.
    + intros -> Hb He Hc. apply Hs0. simpl.
      destruct (msg_type m); try reflexivity; congruence.
    + intros -> Ht.
      rewrite (recv_step_break ServerAiohttp s m w (opus_reader s)
                 [EvLog LvlError MsgWsException] Hpc Hnext).
      * reflexivity.
      * simpl. rewrite Ht. reflexivity.
    + intros -> Ht.
      rewrite (recv_step_break ServerAiohttp s m w (opus_reader s) [] Hpc Hnext).
      * reflexivity.
      * simpl. rewrite Ht. reflexivity.
Qed.

End Ingest.

Section Process.
Context {E : Collaborators}.

Lemma reserved_spec tk : reserved tk = true <-> (tk = 0 \/ tk = 3)%Z.
Proof. unfold reserved. rewrite orb_true_iff, !Z.eqb_eq. reflexivity. Qed.

Lemma text_message_kind tk msg :
  text_message tk = Some msg ->
  exists b, msg = x02 :: b /\ utf8 (replace_marker (id_to_piece tk)) = Some b.
Proof.
  unfold text_message, token_text.
  destruct (utf8 _) as [b|]; [|discriminate].
  intros [= <-]. eauto.
Qed.

(** The sends of [handle_tokens]: one at most, of the text of a token that
    is not reserved. *)
Lemma handle_tokens_send tokens rest s m msg ok :
  In (EvWsSend msg ok) (snd (handle_tokens tokens rest s m)) ->
  exists tk audio,
    tokens = tk :: audio /\ reserved tk = false /\ text_message tk = Some msg.
Proof.
  unfold handle_tokens.
  destruct (negb _); [intros []|].
  destruct (ec_decode _ _) as [[e|pcm] m1]; simpl.
  { intros [H|[]]. discriminate. }
  destruct tokens as [|tk audio]; simpl.
  { intros [H|[H|[]]]; discriminate. }
  destruct (reserved tk) eqn:Hres.
  { simpl. intros [H|[H|[]]]; discriminate. }
  destruct (text_message tk) as [msg'|] eqn:Hmsg.
  2:{ simpl. intros [H|[H|[]]]; discriminate. }
  destruct (websocket_send _ _) as [[e|] t]; simpl;
    intros [H|[H|[H|[H|[]]]]]; try discriminate;
    injection H as <- <-; eauto.
Qed.

(** The sends of one step of [opus_loop]. *)
Lemma opus_step_send s m msg ok :
  In (EvWsSend msg ok) (snd (opus_step s m)) ->
  exists c rest tk audio m1,
    o_pc s = OpusFor (c :: rest)
    /\ lm_gen_step c m = (inr (Some (tk :: audio)), m1)
    /\ reserved tk = false /\ text_message tk = Some msg.
Proof.
  unfold opus_step.
  destruct (o_pc s) as [| | | |[|c rest]|rest| |e] eqn:Hpc; simpl;
    try (intros []; fail).
  - destruct (read_pcm _) as [pcm r]. destruct (length pcm =? 0); simpl;
      intros [H|[]]; discriminate.
  - destruct (all_pcm_data s) as [a|]; [|intros []].
    destruct (frame_size <=? length a); [|intros []].
    destruct (ec_encode _ _) as [[e|cs] m1]; simpl; intros [H|[]]; discriminate.
  - intros [H|[]]. discriminate.
  - destruct (lm_gen_step c m) as [[e|[tokens|]] m1] eqn:Hstep; simpl;
      try (intros [H|[]]; discriminate).
    destruct (handle_tokens tokens rest s m1) as [[s' m'] evs] eqn:Hh. simpl.
    intros [H|H]; [discriminate|].
    assert (Hin : In (EvWsSend msg ok) (snd (handle_tokens tokens rest s m1)))
      by (rewrite Hh; exact H).
    apply handle_tokens_send in Hin as (tk & audio & -> & Hres & Hmsg).
    exists c, rest, tk, audio, m1. auto.
Qed.

(** C5: in a model step whose text token is 0 or 3 the step of
    [opus_loop] sends nothing; conversely whatever a step of [opus_loop]
    sends is the kind-2 message of a model step whose text token is
    neither 0 nor 3. *)
Theorem text_filtering (s : session) (m : model_t) :
  (forall c rest tk audio m1,
     o_pc s = OpusFor (c :: rest) ->
     lm_gen_step c m = (inr (Some (tk :: audio)), m1) ->
     (tk = 0 \/ tk = 3)%Z ->
     forall msg ok, ~ In (EvWsSend msg ok) (snd (opus_step s m)))
  /\ (forall msg ok,
        In (EvWsSend msg ok) (snd (opus_step s m)) ->
        exists c rest tk audio m1 b,
          o_pc s = OpusFor (c :: rest)
          /\ lm_gen_step c m = (inr (Some (tk :: audio)), m1)
          /\ tk <> 0%Z /\ tk <> 3%Z
          /\ msg = x02 :: b
          /\ utf8 (replace_marker (id_to_piece tk)) = Some b).
Proof.
  split.
  - intros c rest tk audio m1 Hpc Hstep Htk msg ok Hin.
    apply opus_step_send in Hin as (c' & rest' & tk' & audio' & m1' & Hpc' & Hstep' & Hres & _).
    rewrite Hpc in Hpc'. injection Hpc' as <- <-.
    rewrite Hstep in Hstep'. injection Hstep' as <- <- <-.
    apply reserved_spec in Htk. congruence.
  - intros msg ok Hin.
    apply opus_step_send in Hin as (c & rest & tk & audio & m1 & Hpc & Hstep & Hres & Hmsg).
    apply text_message_kind in Hmsg as (b & -> & Hb).
    exists c, rest, tk, audio, m1, b.
    assert (Hn : ~ (tk = 0 \/ tk = 3)%Z).
    { rewrite <- reserved_spec. congruence. }
    repeat split; auto; lia.
Qed.

(** The step of [opus_loop] for a model step that yields a text token
    which is not reserved: the audio is decoded and queued, then the text
    is sent, by this task; [ok] tells whether the send returned. *)
Lemma opus_step_text s m c rest tk audio m1 pcm m2 b :
  o_pc s = OpusFor (c :: rest) ->
  lm_gen_step c m = (inr (Some (tk :: audio)), m1) ->
  length (tk :: audio) = dep_q + 1 ->
  ec_decode audio m1 = (inr pcm, m2) ->
  reserved tk = false ->
  utf8 (replace_marker (id_to_piece tk)) = Some b ->
  exists ok,
    snd (opus_step s m)
    = [EvStep c; EvDecode audio; EvAppendPcm pcm;
       EvLog LvlInfo (MsgTextToken (replace_marker (id_to_piece tk)));
       EvWsSend (x02 :: b) ok].
Proof.
  intros Hpc Hstep Hlen Hdec Hres Hb.
  unfold opus_step. rewrite Hpc, Hstep. unfold handle_tokens.
  rewrite Hlen, Nat.eqb_refl. simpl. rewrite !drop_0, Hdec, Hres.
  unfold text_message, token_text. rewrite Hb. simpl.
  destruct (websocket_send _ _) as [[e|] t]; simpl.
  - exists false. reflexivity.
  - exists true. reflexivity.
Qed.

End Process.

(** ** Runs of the process *)

Section Runs.
Context {E : Collaborators}.
Variable v : variant.

Lemma server_step_cases sv a :
  server_step v sv a = sv
  \/ (exists w, server_step v sv a = accepted v sv w)
  \/ (exists i t s,
        sessions sv !! i = Some s
        /\ server_step v sv a = commit sv i t (task_step v t (lock sv) (model sv) s)).
Proof.
  destruct a as [w|i t]; simpl.
  - destruct (existsb busy (sessions sv)); eauto.
  - destruct (may_run sv i t); auto.
    destruct (sessions sv !! i) as [s|] eqn:Hi; auto.
    right. right. eauto.
Qed.

(** Induction over the runs: a property of the initial process kept by
    every connection and by every resumption of a task holds after every
    schedule. *)
Lemma run_invariant (Q : server -> Prop) :
  (forall m0, Q (init m0)) ->
  (forall sv w, Q sv -> Q (accepted v sv w)) ->
  (forall sv i t s,
     Q sv -> sessions sv !! i = Some s ->
     Q (commit sv i t (task_step v t (lock sv) (model sv) s))) ->
  forall m0 sch, Q (run v m0 sch).
Proof.
  intros Hinit Hacc Hstep m0 sch. unfold run.
  generalize (Hinit m0). generalize (init m0).
  induction sch as [|a sch IH]; intros sv Hsv; simpl; [exact Hsv|].
  apply IH.
  destruct (server_step_cases sv a) as [->|[(w & ->)|(i & t & s & Hi & ->)]]; auto.
Qed.

Lemma In_tag i t evs j u e :
  In (j, u, e) (tag i t evs) <-> j = i /\ u = t /\ In e evs.
Proof.
  unfold tag. rewrite in_map_iff. split.
  - intros (e' & [= <- <- <-] & Hin). auto.
  - intros (-> & -> & Hin). eauto.
Qed.

(** Every entry of the trace names a connection that exists. *)
Lemma trace_indices m0 sch j t e :
  In (j, t, e) (trace (run v m0 sch)) -> j < length (sessions (run v m0 sch)).
Proof.
  revert j t e.
  apply (run_invariant (fun sv => forall j t e,
           In (j, t, e) (trace sv) -> j < length (sessions sv))).
  - intros _ j t e [].
  - intros sv w IH j t e Hin. simpl in *. rewrite length_app. simpl.
    specialize (IH _ _ _ Hin). lia.
  - intros sv i t s IH Hi j u e.
    destruct (task_step v t (lock sv) (model sv) s) as [[[l m] s'] evs]. simpl.
    rewrite length_insert, in_app_iff, In_tag.
    intros [Hin|(-> & _ & _)]; [eauto|].
    apply lookup_lt_Some in Hi. exact Hi.
Qed.

(** A property of one connection and the trace holds after every schedule
    when it holds for a new connection whatever the others did before,
    is kept by the calls of other connections, and is kept by every
    resumption of the tasks of the connection. *)
Lemma session_invariant (P : nat -> session -> list (nat * task * event) -> Prop) :
  (forall i w tr, (forall j t e, In (j, t, e) tr -> j <> i) ->
                  P i (new_session v w) tr) ->
  (forall i s tr j t evs, j <> i -> P i s tr -> P i s (tr ++ tag j t evs)) ->
  (forall i s tr t l m l' m' s' evs,
     task_step v t l m s = (l', m', s', evs) ->
     P i s tr -> P i s' (tr ++ tag i t evs)) ->
  forall m0 sch i s,
    sessions (run v m0 sch) !! i = Some s -> P i s (trace (run v m0 sch)).
Proof.
  intros Hnew Hother Hown m0 sch.
  assert (H : (forall j t e, In (j, t, e) (trace (run v m0 sch)) ->
                             j < length (sessions (run v m0 sch)))
              /\ forall i s, sessions (run v m0 sch) !! i = Some s ->
                             P i s (trace (run v m0 sch))); [|apply H].
  apply (run_invariant (fun sv =>
           (forall j t e, In (j, t, e) (trace sv) -> j < length (sessions sv))
           /\ forall i s, sessions sv !! i = Some s -> P i s (trace sv))).
  - intros m. split; [intros j t e []|]. intros i s Hi. discriminate.
  - intros sv w [Hidx IH]. split.
    + intros j t e Hin. simpl in *. rewrite length_app. simpl.
      specialize (Hidx _ _ _ Hin). lia.
    + intros i s. simpl. intros Hi.
      destruct (decide (i < length (sessions sv))) as [Hlt|Hge].
      * rewrite lookup_app_l in Hi by exact Hlt. auto.
      * rewrite lookup_app_r in Hi by lia.
        destruct (i - length (sessions sv)) as [|n] eqn:Hn; [|discriminate].
        injection Hi as <-. apply Hnew.
        intros j t e Hin. specialize (Hidx _ _ _ Hin). lia.
  - intros sv i t s [Hidx IH] Hi.
    destruct (task_step v t (lock sv) (model sv) s) as [[[l m] s'] evs] eqn:Hstep.
    simpl. split.
    + intros j u e. rewrite length_insert, in_app_iff, In_tag.
      intros [Hin|(-> & _ & _)]; [eauto|].
      apply lookup_lt_Some in Hi. exact Hi.
    + intros j sj Hj. destruct (decide (i = j)) as [<-|Hne].
      * rewrite list_lookup_insert_eq in Hj by (apply lookup_lt_Some in Hi; exact Hi).
        injection Hj as <-. eapply Hown; eauto.
      * rewrite list_lookup_insert_ne in Hj by exact Hne.
        apply Hother; auto.
Qed.

End Runs.

(** ** What one resumption of a task changes *)

(** Closes a goal about the result of a step once the step is a pair of
    explicit terms. *)
Ltac by_cases H :=
  simplify_eq H; intros; subst; simpl;
  repeat split; auto; try discriminate;
  try (intros [?|?]; discriminate);
  try (intros ? Hin; simpl in Hin; intuition discriminate);
  eauto 6.

Section Frames.
Context {E : Collaborators}.

Lemma recv_step_frame v s s' evs :
  recv_step v s = (s', evs) ->
  h_pc s' = h_pc s /\ o_pc s' = o_pc s /\ s_pc s' = s_pc s
  /\ all_pcm_data s' = all_pcm_data s
  /\ (r_pc s = RecvIdle -> s' = s /\ evs = [])
  /\ (close s = true -> close s' = true).
Proof.
  unfold recv_step, recv_except, recv_finally. intros H.
  destruct (r_pc s) eqn:Hpc; try (injection H as <- <-; repeat split; auto; discriminate).
  destruct (websocket_next (websocket s)) as [inc w].
  destruct inc as [msg| |e].
  - destruct (recv_body v msg _) as [[r evs0] c].
    destruct c as [| |e]; [| |destruct v, e]; injection H as <- <-;
      repeat split; auto; discriminate.
  - injection H as <- <-. repeat split; auto; discriminate.
  - destruct v, e; injection H as <- <-; repeat split; auto; discriminate.
Qed.

Lemma send_step_frame s s' evs :
  send_step s = (s', evs) ->
  h_pc s' = h_pc s /\ o_pc s' = o_pc s /\ r_pc s' = r_pc s
  /\ all_pcm_data s' = all_pcm_data s /\ close s' = close s
  /\ (s_pc s = SendIdle -> s' = s /\ evs = []).
Proof.
  unfold send_step, send_top. intros H.
  destruct (s_pc s) eqn:Hpc;
    try (injection H as <- <-; repeat split; auto; discriminate);
    try (destruct (close s) eqn:Hc; injection H as <- <-; repeat split; auto; discriminate).
  destruct (read_bytes _) as [msg w].
  destruct (0 <? length msg).
  - destruct (websocket_send _ _) as [[e|] t]; injection H as <- <-;
      repeat split; auto; discriminate.
  - simpl in H. destruct (close s) eqn:Hc; injection H as <- <-;
      repeat split; auto; discriminate.
Qed.

Lemma handle_tokens_frame tokens rest s m s' m' evs :
  handle_tokens tokens rest s m = (s', m', evs) ->
  h_pc s' = h_pc s /\ r_pc s' = r_pc s /\ s_pc s' = s_pc s
  /\ close s' = close s /\ all_pcm_data s' = all_pcm_data s
  /\ (forall ch, ~ In (EvEncode ch) evs) /\ (forall pcm, ~ In (EvReadPcm pcm) evs)
  /\ (o_pc s' = OpusFor rest \/ o_pc s' = OpusAwaitSend rest
      \/ exists e, o_pc s' = OpusRaised e).
Proof.
  unfold handle_tokens. intros H.
  destruct (negb _); [by_cases H|].
  destruct (ec_decode _ _) as [[e|pcm] m1]; [by_cases H|].
  destruct tokens as [|tk audio]; [by_cases H|].
  destruct (reserved tk); [by_cases H|].
  destruct (text_message tk) as [msg|]; [|by_cases H].
  destruct (websocket_send _ _) as [[e|] t]; by_cases H.
Qed.

Lemma opus_step_frame s m s' m' evs :
  opus_step s m = (s', m', evs) ->
  h_pc s' = h_pc s /\ r_pc s' = r_pc s /\ s_pc s' = s_pc s /\ close s' = close s
  /\ (o_pc s = OpusIdle -> s' = s /\ evs = []).
Proof.
  unfold opus_step, opus_top. intros H.
  destruct (o_pc s) as [| | | |[|c rest]|rest| |e] eqn:Hpc;
    try (injection H as <- <- <-; repeat split; auto; discriminate).
  - simpl in H. destruct (close s) eqn:Hc; injection H as <- <- <-;
      repeat split; auto; discriminate.
  - destruct (read_pcm _) as [pcm r]. destruct (length pcm =? 0).
    + simpl in H. destruct (close s) eqn:Hc; injection H as <- <- <-;
        repeat split; auto; discriminate.
    + injection H as <- <- <-. repeat split; auto; discriminate.
  - destruct (all_pcm_data s) as [a|];
      [|injection H as <- <- <-; repeat split; auto; discriminate].
    destruct (frame_size <=? length a).
    + destruct (ec_encode _ _) as [[e|cs] m1]; injection H as <- <- <-;
        repeat split; auto; discriminate.
    + destruct (close s) eqn:Hc; injection H as <- <- <-;
        repeat split; auto; discriminate.
  - destruct (lm_gen_step c m) as [[e|[tokens|]] m1];
      try (injection H as <- <- <-; repeat split; auto; discriminate).
    destruct (handle_tokens tokens rest s m1) as [[s1 m2] evs1] eqn:Hh.
    injection H as <- <- <-.
    apply handle_tokens_frame in Hh as (? & ? & ? & ? & _).
    repeat split; auto; discriminate.
Qed.

End Frames.

(** ** The calls of each task *)

Section Emits.
Context {E : Collaborators}.

Ltac emits_now :=
  repeat (constructor; [simpl; auto|]); try (constructor; fail).

Lemma recv_dispatch_emits d r :
  Forall (emits TRecv) (snd (fst (recv_dispatch d r))).
Proof.
  destruct d as [[|k p]| |]; [simpl; emits_now| |simpl; emits_now..].
  unfold recv_dispatch; simpl.
  destruct (Z.of_N (Byte.to_N k) =? 1)%Z; simpl; emits_now.
Qed.

Lemma recv_body_emits v msg r : Forall (emits TRecv) (snd (fst (recv_body v msg r))).
Proof.
  destruct v; simpl; [apply recv_dispatch_emits|].
  destruct (msg_type msg); simpl; emits_now; apply recv_dispatch_emits.
Qed.

Lemma recv_step_emits v s : Forall (emits TRecv) (snd (recv_step v s)).
Proof.
  unfold recv_step, recv_except, recv_finally.
  destruct (r_pc s); simpl; emits_now.
  destruct (websocket_next _) as [[msg| |e] w]; simpl.
  - pose proof (recv_body_emits v msg (opus_reader (set_websocket w s))) as Hb.
    destruct (recv_body v msg _) as [[r evs] c]. simpl in Hb.
    destruct c as [| |e]; [| |destruct v, e]; simpl;
      rewrite ?Forall_app; repeat split; auto; emits_now.
  - emits_now.
  - destruct v, e; simpl; emits_now.
Qed.

Lemma send_step_emits s : Forall (emits TSend) (snd (send_step s)).
Proof.
  unfold send_step.
  destruct (s_pc s); simpl; emits_now.
  destruct (read_bytes _) as [msg w]. destruct (0 <? length msg).
  - destruct (websocket_send _ _) as [[e|] t]; simpl; emits_now; eexists; reflexivity.
  - simpl. emits_now.
Qed.

Lemma handle_tokens_emits tokens rest s m :
  Forall (emits TOpus) (snd (handle_tokens tokens rest s m)).
Proof.
  unfold handle_tokens.
  destruct (negb _); simpl; emits_now.
  destruct (ec_decode _ _) as [[e|pcm] m1]; simpl; emits_now.
  destruct tokens as [|tk audio]; simpl; emits_now.
  destruct (reserved tk); simpl; emits_now.
  destruct (text_message tk) as [msg|] eqn:Hmsg; simpl; emits_now.
  apply text_message_kind in Hmsg as (b & -> & Hb).
  destruct (websocket_send _ _) as [[e|] t]; simpl; emits_now; eauto.
Qed.

Lemma opus_step_emits s m : Forall (emits TOpus) (snd (opus_step s m)).
Proof.
  unfold opus_step.
  destruct (o_pc s) as [| | | |[|c rest]|rest| |e]; simpl; emits_now.
  - destruct (read_pcm _) as [pcm r]. destruct (length pcm =? 0); simpl; emits_now.
  - destruct (all_pcm_data s) as [a|]; simpl; emits_now.
    destruct (frame_size <=? length a); simpl; emits_now.
    destruct (ec_encode _ _) as [[e|cs] m1]; simpl; emits_now.
  - destruct (lm_gen_step c m) as [[e|[tokens|]] m1]; simpl; emits_now.
    pose proof (handle_tokens_emits tokens rest s m1) as Hh.
    destruct (handle_tokens tokens rest s m1) as [[s1 m2] evs]. simpl in *.
    emits_now. exact Hh.
Qed.

Lemma handler_step_emits l m s :
  Forall (emits THandler) (snd (handler_step l m s)).
Proof.
  unfold handler_step, enter_lock.
  destruct (h_pc s); simpl; emits_now.
  - destruct l; simpl; emits_now.
    destruct (websocket_send _ _) as [[e|] t]; simpl; emits_now.
  - destruct l; simpl; emits_now.
    destruct (websocket_send _ _) as [[e|] t]; simpl; emits_now.
  - destruct (gather s); simpl; emits_now.
Qed.

Lemma task_step_emits v t l m s : Forall (emits t) (snd (task_step v t l m s)).
Proof.
  destruct t; simpl.
  - apply handler_step_emits.
  - pose proof (recv_step_emits v s). destruct (recv_step v s). assumption.
  - pose proof (opus_step_emits s m). destruct (opus_step s m) as [[? ?] ?]. assumption.
  - pose proof (send_step_emits s). destruct (send_step s). assumption.
Qed.

(** Every entry of the trace is a call of the task it names. *)
Lemma trace_emits v m0 sch i t e :
  In (i, t, e) (trace (run v m0 sch)) -> emits t e.
Proof.
  revert i t e.
  apply (run_invariant v (fun sv => forall i t e, In (i, t, e) (trace sv) -> emits t e)).
  - intros _ i t e [].
  - intros sv w IH. exact IH.
  - intros sv i t s IH Hi j u e.
    pose proof (task_step_emits v t (lock sv) (model sv) s) as Hem.
    destruct (task_step v t (lock sv) (model sv) s) as [[[l m] s'] evs]. simpl in *.
    rewrite in_app_iff, In_tag. intros [Hin|(-> & -> & Hin)]; [eauto|].
    rewrite Forall_forall in Hem. apply Hem. apply list_elem_of_In. exact Hin.
Qed.

End Emits.

(** ** The accumulation buffer *)

Section Accumulator.
Context {E : Collaborators}.

Lemma encoded_app i tr1 tr2 : encoded i (tr1 ++ tr2) = encoded i tr1 ++ encoded i tr2.
Proof.
  induction tr1 as [|[[j t] e] tr1 IH]; simpl; [reflexivity|].
  destruct e; auto. destruct (j =? i); simpl; congruence.
Qed.

Lemma drained_app i tr1 tr2 : drained i (tr1 ++ tr2) = drained i tr1 ++ drained i tr2.
Proof.
  induction tr1 as [|[[j t] e] tr1 IH]; simpl; [reflexivity|].
  destruct e; auto. destruct (j =? i); simpl; congruence.
Qed.

Lemma encoded_none i tr :
  (forall j t ch, In (j, t, EvEncode ch) tr -> j <> i) -> encoded i tr = [].
Proof.
  induction tr as [|[[j t] e] tr IH]; simpl; intros H; [reflexivity|].
  destruct e; try (apply IH; intros; eapply H; eauto; fail).
  destruct (j =? i) eqn:Hj.
  - apply Nat.eqb_eq in Hj. exfalso. eapply H; eauto.
  - apply IH. intros; eapply H; eauto.
Qed.

Lemma drained_none i tr :
  (forall j t pcm, In (j, t, EvReadPcm pcm) tr -> j <> i) -> drained i tr = [].
Proof.
  induction tr as [|[[j t] e] tr IH]; simpl; intros H; [reflexivity|].
  destruct e; try (apply IH; intros; eapply H; eauto; fail).
  destruct (j =? i) eqn:Hj.
  - apply Nat.eqb_eq in Hj. exfalso. eapply H; eauto.
  - apply IH. intros; eapply H; eauto.
Qed.

(** The calls of a task other than [opus_loop] neither drain nor encode. *)
Lemma encoded_not_opus i j t evs :
  t <> TOpus -> Forall (emits t) evs -> encoded i (tag j t evs) = [].
Proof.
  intros Ht Hem. apply encoded_none. intros k u ch Hin.
  apply In_tag in Hin as (-> & -> & Hin).
  rewrite Forall_forall in Hem. apply list_elem_of_In, Hem in Hin. contradiction.
Qed.

Lemma drained_not_opus i j t evs :
  t <> TOpus -> Forall (emits t) evs -> drained i (tag j t evs) = [].
Proof.
  intros Ht Hem. apply drained_none. intros k u ch Hin.
  apply In_tag in Hin as (-> & -> & Hin).
  rewrite Forall_forall in Hem. apply list_elem_of_In, Hem in Hin. contradiction.
Qed.

Lemma encoded_other i j t evs : j <> i -> encoded i (tag j t evs) = [].
Proof.
  intros Hne. apply encoded_none. intros k u ch Hin.
  apply In_tag in Hin as (-> & _). exact Hne.
Qed.

Lemma drained_other i j t evs : j <> i -> drained i (tag j t evs) = [].
Proof.
  intros Hne. apply drained_none. intros k u ch Hin.
  apply In_tag in Hin as (-> & _). exact Hne.
Qed.

(** What a step of [opus_loop] drains and encodes, with the buffer before
    and after: [d] is what was read from the adapter (nothing, or one
    chunk), [c] what was passed to [encode] (nothing, or one chunk). *)
Lemma opus_step_buffer i s m s' m' evs :
  opus_step s m = (s', m', evs) ->
  exists d c,
    drained i (tag i TOpus evs) = d /\ encoded i (tag i TOpus evs) = c
    /\ (o_pc s <> OpusStart -> buffer s ++ concat d = concat c ++ buffer s')
    /\ (o_pc s = OpusStart -> buffer s' = [] /\ d = [] /\ c = [])
    /\ (o_pc s' = OpusIdle \/ o_pc s' = OpusStart -> o_pc s = OpusIdle)
    /\ Forall (fun ch => length ch = frame_size) c
    /\ (at_iteration_end s' = true ->
        o_pc s = OpusStart \/ length (buffer s') < frame_size
        \/ (buffer s' = buffer s /\ at_iteration_end s = true)).
Proof.
  unfold opus_step, opus_top, buffer. intros H.
  destruct (o_pc s) as [| | | |[|c rest]|rest| |e] eqn:Hpc.
  - exists [], []. by_cases H. rewrite app_nil_r. reflexivity.
  - exists [], []. simpl in H. destruct (close s); by_cases H; congruence.
  - destruct (read_pcm _) as [pcm r]. exists [pcm], [].
    destruct (length pcm =? 0) eqn:Hlen.
    + apply Nat.eqb_eq, nil_length_inv in Hlen. subst pcm.
      simpl in H. destruct (close s); by_cases H; rewrite ?Nat.eqb_refl; auto;
        destruct (all_pcm_data s); simpl; rewrite ?app_nil_r; auto;
        intros _; right; right; unfold at_iteration_end; rewrite Hpc; auto.
    + simplify_eq H; intros; subst; simpl. rewrite Nat.eqb_refl.
      repeat split; auto; try discriminate.
      * intros _. rewrite app_nil_r. destruct (all_pcm_data s); reflexivity.
      * intros [?|?]; discriminate.
  - destruct (all_pcm_data s) as [a|] eqn:Ha.
    2:{ exists [], []. by_cases H. rewrite Ha. reflexivity. }
    destruct (frame_size <=? length a) eqn:Hfs.
    + apply Nat.leb_le in Hfs. exists [], [take frame_size a].
      destruct (ec_encode _ _) as [[e|cs] m1]; simplify_eq H; intros; subst; simpl;
        rewrite Nat.eqb_refl, !app_nil_r, take_drop;
        (repeat split; auto; try discriminate;
         [intros [?|?]; discriminate
         |constructor; [rewrite length_take; lia|constructor]]).
    + apply Nat.leb_gt in Hfs. exists [], [].
      destruct (close s); by_cases H; rewrite ?Ha, ?app_nil_r; auto.
  - exists [], []. by_cases H; rewrite ?app_nil_r; auto.
  - destruct (lm_gen_step c m) as [[e|[tokens|]] m1];
      try (exists [], []; by_cases H; rewrite ?app_nil_r; auto; fail).
    destruct (handle_tokens tokens rest s m1) as [[s1 m2] evs1] eqn:Hh.
    injection H as <- <- <-.
    apply handle_tokens_frame in Hh as (_ & _ & _ & _ & Hbuf & Henc & Hdr & Hpc').
    exists [], []. simpl. rewrite Hbuf, app_nil_r.
    repeat split; auto; try discriminate.
    + apply drained_none. intros j t pcm Hin.
      apply In_tag in Hin as (_ & _ & Hin). destruct (Hdr _ Hin).
    + apply encoded_none. intros j t pcm Hin.
      apply In_tag in Hin as (_ & _ & Hin). destruct (Henc _ Hin).
    + intros [Hq|Hq]; destruct Hpc' as [Hp|[Hp|[e Hp]]]; congruence.
    + unfold at_iteration_end.
      destruct Hpc' as [Hp|[Hp|[e Hp]]]; rewrite Hp; discriminate.
  - exists [], []. by_cases H; rewrite ?app_nil_r; auto.
  - exists [], []. by_cases H; rewrite ?app_nil_r; auto;
      try (rewrite Hpc; intros [?|?]; discriminate).
  - exists [], []. by_cases H; rewrite ?app_nil_r; auto;
      try (rewrite Hpc; intros [?|?]; discriminate).
Qed.

End Accumulator.

Section Conservation.
Context {E : Collaborators}.

Lemma handler_step_frame l m s l' m' s' evs :
  handler_step l m s = (l', m', s', evs) ->
  all_pcm_data s' = all_pcm_data s
  /\ ((o_pc s' = o_pc s /\ r_pc s' = r_pc s /\ s_pc s' = s_pc s
       /\ (before_gather s' = true -> before_gather s = true))
      \/ (before_gather s = true /\ before_gather s' = false
          /\ o_pc s' = OpusStart /\ r_pc s' = RecvWaiting /\ s_pc s' = SendStart)).
Proof.
  unfold handler_step, enter_lock, before_gather. intros H.
  destruct (h_pc s) eqn:Hpc;
    repeat match type of H with
      | context [if ?b then _ else _] => destruct b
      | context [websocket_send ?x ?y] => destruct (websocket_send x y) as [[?|] ?]
      | context [gather ?x] => destruct (gather x)
      end;
    by_cases H;
    try solve [left; rewrite ?Hpc; repeat split; auto; discriminate
              |right; rewrite ?Hpc; auto].
Qed.

Lemma buffer_inv_run v m0 sch i s :
  sessions (run v m0 sch) !! i = Some s -> buffer_inv i s (trace (run v m0 sch)).
Proof.
  apply (session_invariant v buffer_inv); clear.
  - intros i w tr Hfresh.
    assert (He : encoded i tr = []) by (apply encoded_none; eauto).
    assert (Hd : drained i tr = []) by (apply drained_none; eauto).
    unfold buffer_inv. rewrite He, Hd. simpl.
    repeat split; auto.
  - intros i s tr j t evs Hne. unfold buffer_inv.
    rewrite encoded_app, drained_app, encoded_other, drained_other, !app_nil_r by exact Hne.
    auto.
  - intros i s tr t l m l' m' s' evs Hstep (HA & HB & HC & HD & HE).
    unfold buffer_inv. rewrite encoded_app, drained_app.
    pose proof (task_step_emits v t l m s) as Hem. rewrite Hstep in Hem. simpl in Hem.
    destruct t; simpl in Hstep.
    + (* the handler *)
      rewrite encoded_not_opus, drained_not_opus, !app_nil_r by (auto; discriminate).
      apply handler_step_frame in Hstep as (Hbuf & Hpcs).
      unfold buffer, at_iteration_end in *. rewrite Hbuf.
      destruct Hpcs as [(Ho & _ & _ & Hbg)|(Hbg & Hbg' & Ho & _)]; rewrite Ho.
      * repeat split; auto; apply HA; assumption.
      * specialize (HC Hbg). destruct (HA (or_introl HC)) as (He & Hd & Hb).
        repeat split; auto; try congruence.
        intros Hfs _. rewrite Hb. exact Hfs.
    + (* recv_loop *)
      rewrite encoded_not_opus, drained_not_opus, !app_nil_r by (auto; discriminate).
      destruct (recv_step v s) as [s1 evs1] eqn:Hr. injection Hstep as <- <- <- <-.
      apply recv_step_frame in Hr as (Hh & Ho & _ & Hbuf & _).
      unfold buffer, at_iteration_end, before_gather in *. unsettle.
      rewrite Hbuf, Ho, Hh.
      repeat split; auto; apply HA; assumption.
    + (* opus_loop *)
      destruct (opus_step s m) as [[s1 m1] evs1] eqn:Ho. injection Hstep as <- <- <- <-.
      pose proof (opus_step_frame _ _ _ _ _ Ho) as (Hh & _ & _ & _ & Hidle).
      destruct (opus_step_buffer i _ _ _ _ _ Ho)
        as (d & c & Hd & Hc & Heq & Hstart & Hback & Hlen & Hend).
      unfold before_gather, at_iteration_end. unsettle.
      rewrite Hd, Hc.
      assert (Hkeep : o_pc s = OpusIdle -> s1 = s /\ d = [] /\ c = []).
      { intros Hi. destruct (Hidle Hi) as [-> ->]. simpl in Hd, Hc. auto. }
      assert (Hdec : o_pc s = OpusStart \/ o_pc s <> OpusStart).
      { destruct (o_pc s); auto; right; discriminate. }
      split; [|split; [|split; [|split]]].
      * intros Hq. specialize (Hback Hq).
        destruct (Hkeep Hback) as (-> & -> & ->). rewrite !app_nil_r.
        apply HA. auto.
      * rewrite !concat_app.
        destruct Hdec as [Hs|Hs].
        -- destruct (Hstart Hs) as (-> & -> & ->).
           destruct (HA (or_intror Hs)) as (-> & -> & _). reflexivity.
        -- rewrite <- app_assoc, <- (Heq Hs), app_assoc, HB. reflexivity.
      * unfold before_gather in *. rewrite Hh. intros Hbg.
        destruct (Hkeep (HC Hbg)) as (-> & _). auto.
      * apply Forall_app. auto.
      * intros Hfs Hie. destruct (Hend Hie) as [Hs|[Hlt|[Hb Hie']]].
        -- destruct (Hstart Hs) as (-> & _). exact Hfs.
        -- exact Hlt.
        -- rewrite Hb. auto.
    + (* send_loop *)
      rewrite encoded_not_opus, drained_not_opus, !app_nil_r by (auto; discriminate).
      destruct (send_step s) as [s1 evs1] eqn:Hr. injection Hstep as <- <- <- <-.
      apply send_step_frame in Hr as (Hh & Ho & _ & Hbuf & _).
      unfold buffer, at_iteration_end, before_gather in *. unsettle.
      rewrite Hbuf, Ho, Hh.
      repeat split; auto; apply HA; assumption.
Qed.

(** C1: at every moment of every run, for every connection, the chunks
    passed to [encode] so far, in order, followed by the samples left in
    the accumulation buffer are exactly the chunks drained from the
    adapter so far, in order; in particular the numbers of samples add
    up. *)
Theorem frame_conservation (v : variant) (m0 : model_t) (sch : list action)
    (i : nat) (s : session) :
  sessions (run v m0 sch) !! i = Some s ->
  concat (encoded i (trace (run v m0 sch))) ++ buffer s
  = concat (drained i (trace (run v m0 sch)))
  /\ length (concat (encoded i (trace (run v m0 sch)))) + length (buffer s)
     = length (concat (drained i (trace (run v m0 sch)))).
Proof.
  intros Hi. destruct (buffer_inv_run v m0 sch i s Hi) as (_ & HB & _).
  split; [exact HB|]. rewrite <- HB, length_app. reflexivity.
Qed.

(** C10, as amended: when a frame holds at least one sample, the buffer
    holds fewer samples than a frame whenever [opus_loop] is at the
    boundary of an iteration of its outer loop (not yet started, in the
    sleep, returned), and every chunk passed to [encode] has exactly
    [frame_size] samples. *)
Theorem frame_size_invariant (v : variant) (m0 : model_t) (sch : list action)
    (i : nat) (s : session) :
  0 < frame_size ->
  sessions (run v m0 sch) !! i = Some s ->
  (at_iteration_end s = true -> length (buffer s) < frame_size)
  /\ Forall (fun chunk => length chunk = frame_size)
       (encoded i (trace (run v m0 sch))).
Proof.
  intros Hfs Hi. destruct (buffer_inv_run v m0 sch i s Hi) as (_ & _ & _ & HD & HE).
  auto.
Qed.

End Conservation.

(** ** The start of a session *)

Section Startup.
Context {E : Collaborators}.

Lemma task_eq_handler (t : task) : t = THandler \/ t <> THandler.
Proof. destruct t; auto; right; discriminate. Qed.

Lemma calls_app i tr1 tr2 : calls i (tr1 ++ tr2) = calls i tr1 ++ calls i tr2.
Proof.
  induction tr1 as [|[[j t] e] tr1 IH]; simpl; [reflexivity|].
  destruct e; auto; destruct (j =? i); simpl; congruence.
Qed.

Lemma calls_other i j t evs : j <> i -> calls i (tag j t evs) = [].
Proof.
  intros Hne. apply Nat.eqb_neq in Hne.
  induction evs as [|e evs IH]; simpl; [reflexivity|].
  destruct e; auto; rewrite Hne; auto.
Qed.

Lemma calls_fresh i tr : (forall j t e, In (j, t, e) tr -> j <> i) -> calls i tr = [].
Proof.
  induction tr as [|[[j t] e] tr IH]; simpl; intros H; [reflexivity|].
  assert (Hj : (j =? i) = false) by (apply Nat.eqb_neq; eapply H; eauto).
  destruct e; rewrite ?Hj; apply IH; intros; eapply H; eauto.
Qed.

(** The calls of a loop are not start-up calls. *)
Lemma calls_loop i t evs :
  t <> THandler -> Forall (emits t) evs ->
  Forall (fun c => is_startup_call c = false) (calls i (tag i t evs)).
Proof.
  intros Ht. induction 1 as [|e evs He Hevs IH]; simpl; [constructor|].
  destruct e; simpl in He; try contradiction; try exact IH;
    rewrite Nat.eqb_refl; constructor; auto.
  destruct t; simpl in He; try contradiction.
  - destruct He as (tk & b & -> & _). reflexivity.
  - destruct He as (b & ->). reflexivity.
Qed.

Lemma recv_step_idle v s : r_pc s = RecvIdle -> recv_step v s = (s, []).
Proof. unfold recv_step. intros ->. reflexivity. Qed.

Lemma opus_step_idle s m : o_pc s = OpusIdle -> opus_step s m = (s, m, []).
Proof. unfold opus_step. intros ->. reflexivity. Qed.

Lemma send_step_idle s : s_pc s = SendIdle -> send_step s = (s, []).
Proof. unfold send_step. intros ->. reflexivity. Qed.

(** A loop that does not exist does nothing. *)
Lemma loop_step_idle v t l m s :
  t <> THandler -> idle s -> task_step v t l m s = (l, m, s, []).
Proof.
  intros Ht (Hr & Ho & Hs). destruct t; simpl; [contradiction|..].
  - rewrite recv_step_idle by exact Hr.
    rewrite settle_none by (simpl; rewrite Hr; reflexivity). reflexivity.
  - rewrite opus_step_idle by exact Ho.
    rewrite settle_none by (simpl; rewrite Ho; reflexivity). reflexivity.
  - rewrite send_step_idle by exact Hs.
    rewrite settle_none by (simpl; rewrite Hs; reflexivity). reflexivity.
Qed.

(** A loop leaves the program point of the handler alone. *)
Lemma loop_step_h_pc v t l m s l' m' s' evs :
  t <> THandler -> task_step v t l m s = (l', m', s', evs) ->
  h_pc s' = h_pc s /\ l' = l.
Proof.
  intros Ht H. destruct t; simpl in H; [contradiction|..].
  - destruct (recv_step v s) as [s1 evs1] eqn:Hr. injection H as <- <- <- <-.
    apply recv_step_frame in Hr as (? & _). unsettle. auto.
  - destruct (opus_step s m) as [[s1 m1] evs1] eqn:Hr. injection H as <- <- <- <-.
    apply opus_step_frame in Hr as (? & _). unsettle. auto.
  - destruct (send_step s) as [s1 evs1] eqn:Hr. injection H as <- <- <- <-.
    apply send_step_frame in Hr as (? & _). unsettle. auto.
Qed.

Lemma startup_inv_run v m0 sch i s :
  sessions (run v m0 sch) !! i = Some s -> startup_inv i s (trace (run v m0 sch)).
Proof.
  apply (session_invariant v startup_inv); clear.
  - intros i w tr Hfresh. unfold startup_inv, idle.
    rewrite (calls_fresh i tr Hfresh). destruct v; simpl; auto.
  - intros i s tr j t evs Hne. unfold startup_inv.
    rewrite calls_app, calls_other, app_nil_r by exact Hne. auto.
  - intros i s tr t l m l' m' s' evs Hstep Hinv.
    destruct (task_eq_handler t) as [->|Ht].
    + (* the handler *)
      simpl in Hstep. unfold startup_inv, handler_step, enter_lock, idle in *.
      rewrite calls_app.
      destruct (h_pc s) eqn:Hpc;
        repeat match type of Hstep with
          | context [if ?b then _ else _] => destruct b
          | context [websocket_send ?x ?y] => destruct (websocket_send x y) as [[?|] ?]
          | context [gather ?x] => destruct (gather x)
          end;
        simplify_eq Hstep; intros; subst; simpl; rewrite ?Hpc, ?Nat.eqb_refl, ?app_nil_r;
        try (destruct Hinv as [-> Hidle]); auto.
      * exists []. split; [reflexivity|constructor].
      * destruct Hinv as (rest & Hc & Hrest). rewrite Hc.
        right. exists (rest ++ [(THandler, EvRelease)]).
        split; [reflexivity|].
        apply Forall_app. split; [exact Hrest|]. repeat constructor.
      * destruct Hinv as (rest & Hc & Hrest). rewrite Hc.
        exists (rest ++ [(THandler, EvRelease)]).
        split; [reflexivity|].
        apply Forall_app. split; [exact Hrest|]. repeat constructor.
    + (* a loop *)
      pose proof (task_step_emits v t l m s) as Hem. rewrite Hstep in Hem. simpl in Hem.
      pose proof (calls_loop i t evs Ht Hem) as Hcalls.
      destruct (loop_step_h_pc _ _ _ _ _ _ _ _ _ Ht Hstep) as [Hh _].
      assert (Hidle : idle s -> s' = s /\ evs = []).
      { intros Hi. rewrite (loop_step_idle v t l m s Ht Hi) in Hstep.
        injection Hstep as <- <- <- <-. auto. }
      assert (Hrun : (exists rest, calls i tr = startup ++ rest
                        /\ Forall (fun c => is_startup_call c = false) rest) ->
                     exists rest, calls i (tr ++ tag i t evs) = startup ++ rest
                        /\ Forall (fun c => is_startup_call c = false) rest).
      { intros (rest & Hc & Hrest). exists (rest ++ calls i (tag i t evs)).
        rewrite calls_app, Hc, app_assoc. split; [reflexivity|].
        apply Forall_app. auto. }
      unfold startup_inv in *. rewrite Hh.
      destruct (h_pc s); auto;
        try (destruct Hinv as [Hc Hi]; destruct (Hidle Hi) as [-> ->];
             simpl; rewrite app_nil_r; auto; fail).
      destruct Hinv as [[Hc Hi]|Hr]; [|auto].
      destruct (Hidle Hi) as [-> ->]. simpl. rewrite app_nil_r. auto.
Qed.

Lemma split_after_prefix {A} (Q : A -> bool) (l1 l2 pre post : list A) (c : A) :
  l1 ++ l2 = pre ++ c :: post ->
  Forall (fun x => Q x = false) l1 -> Q c = true ->
  exists rest, pre = l1 ++ rest /\ l2 = rest ++ c :: post.
Proof.
  revert pre. induction l1 as [|x l1 IH]; intros pre Heq Hl1 Hc; simpl in *.
  - exists pre. auto.
  - apply Forall_cons in Hl1 as [Hx Hl1].
    destruct pre as [|y pre]; simpl in Heq; injection Heq as -> Heq.
    + congruence.
    + destruct (IH pre Heq Hl1 Hc) as (rest & -> & ->). eauto.
Qed.

(** C3: for every connection, a call of one of the three loops, a call
    that processes a frame and the send of a kind-1 or kind-2 message are
    all preceded by the calls of the start of the session, which open the
    calls of the connection in this order: the lock is taken, the adapter
    is created, the codec and the language model are reset, the kind-0
    handshake is sent; and none of these calls is made a second time. *)
Theorem startup_order (v : variant) (m0 : model_t) (sch : list action)
    (i : nat) (pre post : list (task * event)) (c : task * event) :
  calls i (trace (run v m0 sch)) = pre ++ c :: post ->
  is_stream_call c = true ->
  exists rest,
    pre = startup ++ rest
    /\ Forall (fun c' => is_startup_call c' = false) (rest ++ c :: post).
Proof.
  intros Hsplit Hc.
  destruct (sessions (run v m0 sch) !! i) as [s|] eqn:Hi.
  2:{ rewrite calls_fresh in Hsplit; [destruct pre; discriminate|].
      intros j t e Hin Hj. subst j. apply trace_indices in Hin.
      apply lookup_ge_None in Hi. lia. }
  pose proof (startup_inv_run v m0 sch i s Hi) as Hinv.
  assert (Hstart : Forall (fun x => is_stream_call x = false) startup)
    by (repeat constructor).
  assert (Hfail : Forall (fun x => is_stream_call x = false) startup_failed)
    by (repeat constructor).
  assert (Hrun : (exists rest, calls i (trace (run v m0 sch)) = startup ++ rest
                    /\ Forall (fun c => is_startup_call c = false) rest) ->
                 exists rest, pre = startup ++ rest
                    /\ Forall (fun c' => is_startup_call c' = false) (rest ++ c :: post)).
  { intros (rest0 & Hcalls & Hrest). rewrite Hcalls in Hsplit.
    destruct (split_after_prefix is_stream_call _ _ _ _ _ Hsplit Hstart Hc)
      as (rest & -> & ->). eauto. }
  assert (Hno : forall l, calls i (trace (run v m0 sch)) = l ->
                          Forall (fun x => is_stream_call x = false) l -> False).
  { intros l Hl Hall. rewrite Hl in Hsplit. rewrite Hsplit in Hall.
    apply Forall_app in Hall as [_ Hall]. apply Forall_cons in Hall as [Hc' _].
    congruence. }
  unfold startup_inv in Hinv.
  destruct (h_pc s); auto;
    try (destruct Hinv as [Hcalls _]; exfalso; eapply Hno; eauto; constructor; fail).
  destruct Hinv as [[Hcalls _]|Hr]; auto. exfalso. eapply Hno; eauto.
Qed.

End Startup.

(** ** The lock *)

Section Exclusion.
Context {E : Collaborators}.

Lemma holders_app l1 l2 : holders (l1 ++ l2) = holders l1 + holders l2.
Proof. induction l1 as [|s l1 IH]; simpl; lia. Qed.

Lemma holders_insert (l : list session) i s s' :
  l !! i = Some s ->
  holders (<[i := s']> l) + (if holding s then 1 else 0)
  = holders l + (if holding s' then 1 else 0).
Proof.
  revert i. induction l as [|x l IH]; intros [|i] Hi; simpl in *; try discriminate.
  - injection Hi as ->. lia.
  - specialize (IH i Hi). lia.
Qed.

Lemma holders_lookup (l : list session) i s :
  l !! i = Some s -> holding s = true -> 1 <= holders l.
Proof.
  revert i. induction l as [|x l IH]; intros [|i] Hi Hs; simpl in *; try discriminate.
  - injection Hi as ->. rewrite Hs. lia.
  - specialize (IH i Hi Hs). lia.
Qed.

Lemma lookup_tag i t (evs : list event) a j u e :
  tag i t evs !! a = Some (j, u, e) <-> j = i /\ u = t /\ evs !! a = Some e.
Proof.
  unfold tag. rewrite list_lookup_fmap.
  destruct (evs !! a) as [e'|]; simpl; split.
  - intros [= <- <- <-]. auto.
  - intros (-> & -> & [= ->]). reflexivity.
  - discriminate.
  - intros (_ & _ & H). discriminate.
Qed.

(** What a resumption of the handler does to the lock: it leaves the lock
    and its own place alone, or takes the free lock, or gives the lock
    back; the handshake is sent only after taking the free lock; an
    acquire is followed by a release unless the handler stays inside the
    [async with]; leaving the [async with] makes a release. *)
Lemma handler_step_lock l m s l' m' s' evs :
  handler_step l m s = (l', m', s', evs) ->
  ((l' = l /\ holding s' = holding s)
   \/ (l = false /\ l' = true /\ holding s = false /\ holding s' = true)
   \/ (holding s = true /\ holding s' = false /\ l' = false))
  /\ (forall a, evs !! a = Some EvAcquire ->
        holding s' = true \/ exists b, a < b /\ evs !! b = Some EvRelease)
  /\ (forall a ok, evs !! a = Some (EvWsSend [x00] ok) -> l = false)
  /\ (holding s = true -> holding s' = false ->
        exists b, evs !! b = Some EvRelease).
Proof.
  unfold handler_step, enter_lock, holding. intros H.
  destruct (h_pc s) eqn:Hpc;
    repeat match type of H with
      | context [if ?b then _ else _] => destruct b
      | context [websocket_send ?x ?y] => destruct (websocket_send x y) as [[?|] ?]
      | context [gather ?x] => destruct (gather x)
      end;
    simplify_eq H; intros; subst; simpl; rewrite ?Hpc;
    (split; [auto 10|]); (split; [|split]); auto;
    try (intros a Ha; repeat (destruct a as [|a]; try discriminate); fail);
    try (intros a ok Ha; repeat (destruct a as [|a]; try discriminate); fail);
    try discriminate.
  - intros a Ha. right. exists 7. split; [|reflexivity].
    repeat (destruct a as [|a]; try discriminate); lia.
  - intros a Ha. right. exists 6. split; [|reflexivity].
    repeat (destruct a as [|a]; try discriminate); lia.
  - intros _ _. exists 0. reflexivity.
  - intros _ _. exists 0. reflexivity.
Qed.

(** The same for any task: the loops touch neither the lock nor the place
    of the handler, and make none of these calls. *)
Lemma task_step_lock v t l m s l' m' s' evs :
  task_step v t l m s = (l', m', s', evs) ->
  ((l' = l /\ holding s' = holding s)
   \/ (l = false /\ l' = true /\ holding s = false /\ holding s' = true)
   \/ (holding s = true /\ holding s' = false /\ l' = false))
  /\ (t = THandler -> forall a, evs !! a = Some EvAcquire ->
        holding s' = true \/ exists b, a < b /\ evs !! b = Some EvRelease)
  /\ (t = THandler -> forall a ok, evs !! a = Some (EvWsSend [x00] ok) -> l = false)
  /\ (holding s = true -> holding s' = false ->
        t = THandler /\ exists b, evs !! b = Some EvRelease).
Proof.
  intros H. destruct (task_eq_handler t) as [->|Ht].
  - apply handler_step_lock in H as (H1 & H2 & H3 & H4). repeat split; auto.
  - destruct (loop_step_h_pc _ _ _ _ _ _ _ _ _ Ht H) as [Hh ->].
    unfold holding. rewrite Hh. repeat split; auto; try contradiction; congruence.
Qed.

Lemma lock_inv_run v m0 sch : lock_inv (run v m0 sch).
Proof.
  apply (run_invariant v lock_inv).
  - intros m. unfold lock_inv. simpl. repeat split; auto; intros; discriminate.
  - intros sv w (HL & HT1 & HT2). unfold lock_inv. simpl.
    rewrite holders_app. simpl. destruct v; simpl; (split; [lia|]); (split; [|exact HT2]);
      intros p i Hp; (destruct (HT1 p i Hp) as [?|(s & Hs & Hh)]; [auto|]);
      right; exists s; (split; [|exact Hh]); apply lookup_app_l_Some; exact Hs.
  - intros sv k t s (HL & HT1 & HT2) Hk.
    destruct (task_step v t (lock sv) (model sv) s) as [[[l' m'] s'] evs] eqn:Hstep.
    apply task_step_lock in Hstep as (Hlock & Hacq & Hhs & Hrel).
    pose proof (holders_insert _ _ _ s' Hk) as Hins.
    assert (Hklt : k < length (sessions sv)) by (eapply lookup_lt_Some; eauto).
    unfold lock_inv. simpl. split; [|split].
    + destruct Hlock as [(-> & Hh)|[(Hl & -> & Hh & Hh')|(Hh & Hh' & ->)]].
      * rewrite Hh in Hins. lia.
      * rewrite Hh, Hh' in Hins. rewrite Hl in HL. lia.
      * rewrite Hh, Hh' in Hins. pose proof (holders_lookup _ _ _ Hk Hh).
        destruct (lock sv); lia.
    + intros p i Hp.
      destruct (decide (p < length (trace sv))) as [Hlt|Hge].
      * rewrite lookup_app_l in Hp by exact Hlt.
        destruct (HT1 p i Hp) as [(r & Hr & Hrr)|(si & Hsi & Hh)].
        { left. exists r. split; [exact Hr|]. apply lookup_app_l_Some. exact Hrr. }
        destruct (decide (k = i)) as [->|Hne].
        2:{ right. exists si. rewrite list_lookup_insert_ne by exact Hne. auto. }
        rewrite Hk in Hsi. injection Hsi as <-.
        destruct (holding s') eqn:Hh'.
        { right. exists s'. rewrite list_lookup_insert_eq by exact Hklt. auto. }
        destruct (Hrel Hh eq_refl) as (-> & b & Hb).
        left. exists (length (trace sv) + b). split; [lia|].
        rewrite lookup_app_r by lia.
        replace (length (trace sv) + b - length (trace sv)) with b by lia.
        apply lookup_tag. auto.
      * rewrite lookup_app_r in Hp by lia.
        apply lookup_tag in Hp as (-> & <- & Ha).
        destruct (Hacq eq_refl _ Ha) as [Hh'|(b & Hab & Hb)].
        { right. exists s'. rewrite list_lookup_insert_eq by exact Hklt. auto. }
        left. exists (length (trace sv) + b). split; [lia|].
        rewrite lookup_app_r by lia.
        replace (length (trace sv) + b - length (trace sv)) with b by lia.
        apply lookup_tag. auto.
    + intros p q i j ok Hij Hp Hq Hpq.
      destruct (decide (q < length (trace sv))) as [Hlt|Hge].
      * rewrite lookup_app_l in Hp by lia. rewrite lookup_app_l in Hq by exact Hlt.
        destruct (HT2 p q i j ok Hij Hp Hq Hpq) as (r & Hr1 & Hr2 & Hr).
        exists r. repeat split; auto. apply lookup_app_l_Some. exact Hr.
      * rewrite lookup_app_r in Hq by lia.
        apply lookup_tag in Hq as (-> & <- & Hq).
        pose proof (Hhs eq_refl _ _ Hq) as Hfree. rewrite Hfree in HL.
        destruct (decide (p < length (trace sv))) as [Hplt|Hpge].
        2:{ rewrite lookup_app_r in Hp by lia.
            apply lookup_tag in Hp as (-> & _). congruence. }
        rewrite lookup_app_l in Hp by exact Hplt.
        destruct (HT1 p i Hp) as [(r & Hr & Hrr)|(si & Hsi & Hh)].
        -- exists r. pose proof (lookup_lt_Some _ _ _ Hrr).
           repeat split; [exact Hr|lia|]. apply lookup_app_l_Some. exact Hrr.
        -- pose proof (holders_lookup _ _ _ Hsi Hh). lia.
Qed.


Lemma gather_done s :
  gather s = GatherDone -> r_pc s = RecvDone /\ o_pc s = OpusDone /\ s_pc s = SendDone.
Proof.
  unfold gather. destruct (gather_exc s); [discriminate|].
  destruct (o_pc s), (r_pc s), (s_pc s); try discriminate; auto.
Qed.

(** A handler that returned had all three loops return before. *)
Lemma closed_run v m0 sch i s :
  sessions (run v m0 sch) !! i = Some s ->
  h_pc s = HDone -> r_pc s = RecvDone /\ o_pc s = OpusDone /\ s_pc s = SendDone.
Proof.
  apply (session_invariant v (fun _ s _ =>
           h_pc s = HDone -> r_pc s = RecvDone /\ o_pc s = OpusDone /\ s_pc s = SendDone)).
  - intros _ w _ _. destruct v; discriminate.
  - auto.
  - clear. intros _ s _ t l m l' m' s' evs Hstep IH.
    destruct (task_eq_handler t) as [->|Ht].
    + simpl in Hstep. unfold handler_step, enter_lock in Hstep.
      destruct (h_pc s) eqn:Hpc;
        repeat match type of Hstep with
          | context [if ?b then _ else _] => destruct b
          | context [websocket_send ?x ?y] => destruct (websocket_send x y) as [[?|] ?]
          | context [gather ?x] => destruct (gather x) eqn:Hg
          end;
        simplify_eq Hstep; intros; subst; simpl in *; try discriminate;
        try congruence; try (apply IH; congruence).
      apply gather_done. assumption.
    + destruct (loop_step_h_pc _ _ _ _ _ _ _ _ _ Ht Hstep) as [Hh _].
      rewrite Hh. intros Hd. destruct (IH Hd) as (Hr & Ho & Hs).
      assert (s' = s); [|subst; auto].
      destruct t; simpl in Hstep; [contradiction|..].
      * unfold recv_step in Hstep. rewrite Hr in Hstep.
        rewrite settle_none in Hstep by (simpl; rewrite Hr; reflexivity).
        congruence.
      * unfold opus_step in Hstep. rewrite Ho in Hstep.
        rewrite settle_none in Hstep by (simpl; rewrite Ho; reflexivity).
        congruence.
      * unfold send_step in Hstep. rewrite Hs in Hstep.
        rewrite settle_none in Hstep by (simpl; rewrite Hs; reflexivity).
        congruence.
Qed.


End Exclusion.

(** ** The future of [gather] *)

Section Gather.
Context {E : Collaborators}.

Lemma recv_step_gather_exc v s : gather_exc (fst (recv_step v s)) = gather_exc s.
Proof.
  unfold recv_step, recv_except, recv_finally.
  destruct (r_pc s); try reflexivity.
  destruct (websocket_next _) as [[msg| |e] w]; simpl.
  - destruct (recv_body _ _ _) as [[r evs0] c].
    destruct c as [| |e]; [..|destruct v, e]; reflexivity.
  - reflexivity.
  - destruct v, e; reflexivity.
Qed.

Lemma send_step_gather_exc s : gather_exc (fst (send_step s)) = gather_exc s.
Proof.
  unfold send_step, send_top.
  destruct (s_pc s); try reflexivity; try (destruct (close s); reflexivity).
  destruct (read_bytes _) as [msg w]. destruct (0 <? length msg).
  - destruct (websocket_send _ _) as [[e|] t]; reflexivity.
  - simpl. destruct (close s); reflexivity.
Qed.

Lemma handle_tokens_gather_exc tokens rest s m :
  gather_exc (fst (fst (handle_tokens tokens rest s m))) = gather_exc s.
Proof.
  unfold handle_tokens.
  destruct (negb _); [reflexivity|].
  destruct (ec_decode _ _) as [[e|pcm] m1]; [reflexivity|].
  destruct tokens as [|tk audio]; [reflexivity|].
  destruct (reserved tk); [reflexivity|].
  destruct (text_message tk) as [msg|]; [|reflexivity].
  destruct (websocket_send _ _) as [[e|] t]; reflexivity.
Qed.

Lemma opus_step_gather_exc s m :
  gather_exc (fst (fst (opus_step s m))) = gather_exc s.
Proof.
  unfold opus_step, opus_top.
  destruct (o_pc s) as [| | | |[|c rest]|rest| |e]; try reflexivity.
  - simpl. destruct (close s); reflexivity.
  - destruct (read_pcm _) as [pcm r]. destruct (length pcm =? 0); [|reflexivity].
    simpl. destruct (close s); reflexivity.
  - destruct (all_pcm_data s) as [a|]; [|reflexivity].
    destruct (frame_size <=? length a).
    + destruct (ec_encode _ _) as [[e|cs] m1]; reflexivity.
    + destruct (close s); reflexivity.
  - destruct (lm_gen_step c m) as [[e|[tokens|]] m1]; try reflexivity.
    pose proof (handle_tokens_gather_exc tokens rest s m1) as H.
    destruct (handle_tokens tokens rest s m1) as [[s1 m2] evs1]. exact H.
Qed.

Lemma recv_step_raised v s e : r_pc s = RecvRaised e -> recv_step v s = (s, []).
Proof. unfold recv_step. intros ->. reflexivity. Qed.

Lemma send_step_raised s e : s_pc s = SendRaised e -> send_step s = (s, []).
Proof. unfold send_step. intros ->. reflexivity. Qed.

Lemma opus_step_raised s m e : o_pc s = OpusRaised e -> opus_step s m = (s, m, []).
Proof. unfold opus_step. intros ->. reflexivity. Qed.

(** What a resumption of a loop does to the loops and to the future: the
    other loops stay where they are, a loop that raised stays so, and the
    future takes the exception of the loop when it has none. *)
Lemma loop_step_gather v t l m s l' m' s' evs :
  t <> THandler -> task_step v t l m s = (l', m', s', evs) ->
  (forall t', t' <> t -> loop_exc t' s' = loop_exc t' s)
  /\ (forall e, loop_exc t s = Some e -> loop_exc t s' = Some e)
  /\ gather_exc s' = match gather_exc s with
                     | Some e => Some e
                     | None => loop_exc t s'
                     end.
Proof.
  intros Ht H. destruct t; simpl in H; [contradiction|..].
  - pose proof (recv_step_gather_exc v s) as Hg.
    destruct (recv_step v s) as [s1 evs1] eqn:Hr. injection H as <- <- <- <-.
    pose proof (recv_step_frame _ _ _ _ Hr) as (_ & Ho & Hs & _).
    simpl in Hg. split; [|split].
    + intros [| | |] Hne; simpl; unsettle; rewrite ?Ho, ?Hs, ?Hrp; congruence.
    + simpl. unsettle. destruct (r_pc s) eqn:Hpc; try discriminate.
      rewrite (recv_step_raised v s e Hpc) in Hr. injection Hr as <- _.
      rewrite Hpc. auto.
    + rewrite settle_gather_exc, Hg. simpl. unsettle. reflexivity.
  - pose proof (opus_step_gather_exc s m) as Hg.
    destruct (opus_step s m) as [[s1 m1] evs1] eqn:Hr. injection H as <- <- <- <-.
    pose proof (opus_step_frame _ _ _ _ _ Hr) as (_ & Hrp & Hs & _).
    simpl in Hg. split; [|split].
    + intros [| | |] Hne; simpl; unsettle; rewrite ?Ho, ?Hs, ?Hrp; congruence.
    + simpl. unsettle. destruct (o_pc s) eqn:Hpc; try discriminate.
      rewrite (opus_step_raised s m e Hpc) in Hr. injection Hr as <- _ _.
      rewrite Hpc. auto.
    + rewrite settle_gather_exc, Hg. simpl. unsettle. reflexivity.
  - pose proof (send_step_gather_exc s) as Hg.
    destruct (send_step s) as [s1 evs1] eqn:Hr. injection H as <- <- <- <-.
    pose proof (send_step_frame _ _ _ Hr) as (_ & Ho & Hrp & _).
    simpl in Hg. split; [|split].
    + intros [| | |] Hne; simpl; unsettle; rewrite ?Ho, ?Hs, ?Hrp; congruence.
    + simpl. unsettle. destruct (s_pc s) eqn:Hpc; try discriminate.
      rewrite (send_step_raised s e Hpc) in Hr. injection Hr as <- _.
      rewrite Hpc. auto.
    + rewrite settle_gather_exc, Hg. simpl. unsettle. reflexivity.
Qed.

Lemma task_eq (t t' : task) : t = t' \/ t <> t'.
Proof. destruct t, t'; auto; right; discriminate. Qed.

Lemma loop_raised_exc s :
  loop_raised s <-> exists t e, loop_exc t s = Some e.
Proof.
  unfold loop_raised. split.
  - intros [(e & H)|[(e & H)|(e & H)]].
    + exists TOpus, e. simpl. rewrite H. reflexivity.
    + exists TRecv, e. simpl. rewrite H. reflexivity.
    + exists TSend, e. simpl. rewrite H. reflexivity.
  - intros (t & e & H). destruct t; simpl in H; [discriminate|..].
    + destruct (r_pc s); try discriminate. right. left. eauto.
    + destruct (o_pc s); try discriminate. left. eauto.
    + destruct (s_pc s); try discriminate. right. right. eauto.
Qed.

Lemma gather_inv_exc s :
  gather_inv s
  <-> (forall e, gather_exc s = Some e -> exists t, loop_exc t s = Some e)
      /\ (gather_exc s = None -> forall t, loop_exc t s = None).
Proof.
  unfold gather_inv. rewrite loop_raised_exc. split; intros [Ha Hb]; split.
  - intros e He. destruct (Ha e He) as [H|[H|H]].
    + exists TOpus. simpl. rewrite H. reflexivity.
    + exists TRecv. simpl. rewrite H. reflexivity.
    + exists TSend. simpl. rewrite H. reflexivity.
  - intros Hn t. destruct (loop_exc t s) as [e|] eqn:Hl; [|reflexivity].
    exfalso. apply (Hb Hn). eauto.
  - intros e He. destruct (Ha e He) as (t & Ht).
    destruct t; simpl in Ht; [discriminate|..].
    + destruct (r_pc s); try discriminate. injection Ht as ->. auto.
    + destruct (o_pc s); try discriminate. injection Ht as ->. auto.
    + destruct (s_pc s); try discriminate. injection Ht as ->. auto.
  - intros Hn (t & e & Ht). rewrite (Hb Hn t) in Ht. discriminate.
Qed.

Lemma gather_inv_step v t l m s l' m' s' evs :
  task_step v t l m s = (l', m', s', evs) -> gather_inv s -> gather_inv s'.
Proof.
  intros Hstep Hinv. destruct (task_eq_handler t) as [->|Ht].
  - simpl in Hstep. unfold handler_step, enter_lock in Hstep.
    unfold gather_inv, loop_raised in *.
    destruct (h_pc s) eqn:Hpc;
      repeat match type of Hstep with
        | context [if ?b then _ else _] => destruct b
        | context [websocket_send ?x ?y] => destruct (websocket_send x y) as [[?|] ?]
        | context [gather ?x] => destruct (gather x)
        end;
      simplify_eq Hstep; intros; subst; simpl; try exact Hinv.
    split; [discriminate|].
    intros _ [(e & H)|[(e & H)|(e & H)]]; discriminate.
  - apply gather_inv_exc. apply gather_inv_exc in Hinv as [Ha Hb].
    destruct (loop_step_gather _ _ _ _ _ _ _ _ _ Ht Hstep) as (Hoth & Hkeep & Hg).
    rewrite Hg. split.
    + intros e He. destruct (gather_exc s) as [e0|] eqn:Hs.
      * injection He as <-. destruct (Ha e0 eq_refl) as (t' & Ht').
        exists t'. destruct (task_eq t' t) as [->|Hne]; [auto|].
        rewrite Hoth by exact Hne. exact Ht'.
      * eauto.
    + destruct (gather_exc s) as [e0|] eqn:Hs; [discriminate|].
      intros Hn t'. destruct (task_eq t' t) as [->|Hne]; [exact Hn|].
      rewrite Hoth by exact Hne. apply Hb. reflexivity.
Qed.

(** In every run, the future of [gather] carries the exception of a loop
    that raised, and it carries one as soon as a loop has raised. *)
Lemma gather_inv_run v m0 sch i s :
  sessions (run v m0 sch) !! i = Some s -> gather_inv s.
Proof.
  apply (session_invariant v (fun _ s _ => gather_inv s)).
  - intros _ w _ _. unfold gather_inv, loop_raised. simpl.
    split; [discriminate|].
    intros _ [(e & H)|[(e & H)|(e & H)]]; discriminate.
  - auto.
  - intros _ s0 _ t l m l' m' s' evs Hstep. apply gather_inv_step with (1 := Hstep).
Qed.

End Gather.

(** ** Who sends what, and what a failure of the model does *)

Section Teardown.
Context {E : Collaborators}.

(** C4, as amended: for a model step whose text token is not reserved,
    [opus_loop] maps the token through the tokenizer, replaces the marker
    by a space and sends the kind-2 message itself, in the step that
    produced it, after queuing the audio of that step; in every run the
    kind-2 messages are sent by [opus_loop] and [send_loop] sends kind-1
    messages only. *)
Theorem text_sent_by_process_loop (v : variant) (m0 : model_t) (sch : list action) :
  (forall s m c rest tk audio m1 pcm m2 b,
     o_pc s = OpusFor (c :: rest) ->
     lm_gen_step c m = (inr (Some (tk :: audio)), m1) ->
     length (tk :: audio) = dep_q + 1 ->
     ec_decode audio m1 = (inr pcm, m2) ->
     reserved tk = false ->
     utf8 (replace_marker (id_to_piece tk)) = Some b ->
     exists ok,
       snd (opus_step s m)
       = [EvStep c; EvDecode audio; EvAppendPcm pcm;
          EvLog LvlInfo (MsgTextToken (replace_marker (id_to_piece tk)));
          EvWsSend (x02 :: b) ok])
  /\ (forall i t b ok,
        In (i, t, EvWsSend (x02 :: b) ok) (trace (run v m0 sch)) -> t = TOpus)
  /\ (forall i msg ok,
        In (i, TSend, EvWsSend msg ok) (trace (run v m0 sch)) ->
        exists b, msg = x01 :: b).
Proof.
  split; [|split].
  - intros s m c rest tk audio m1 pcm m2 b Hpc Hstep Hlen Hdec Hres Hb.
    exact (opus_step_text s m c rest tk audio m1 pcm m2 b Hpc Hstep Hlen Hdec Hres Hb).
  - intros i t b ok Hin. apply trace_emits in Hin. simpl in Hin.
    destruct t; simpl in Hin; auto; try contradiction; try discriminate.
    destruct Hin as (b' & Hb'). discriminate.
  - intros i msg ok Hin. apply trace_emits in Hin. exact Hin.
Qed.

Lemma gather_exc_raised s e : gather_exc s = Some e -> gather s = GatherRaised e.
Proof. unfold gather. intros ->. reflexivity. Qed.

(** Only [recv_loop] sets [close]. *)
Lemma close_set_by_recv v t l m s l' m' s' evs :
  t <> TRecv -> task_step v t l m s = (l', m', s', evs) ->
  close s = false -> close s' = false.
Proof.
  intros Ht H Hc. destruct t; simpl in H; [|contradiction|..].
  - unfold handler_step, enter_lock in H.
    destruct (h_pc s);
      repeat match type of H with
        | context [if ?b then _ else _] => destruct b
        | context [websocket_send ?x ?y] => destruct (websocket_send x y) as [[?|] ?]
        | context [gather ?x] => destruct (gather x)
        end;
      simplify_eq H; intros; subst; simpl; auto.
  - destruct (opus_step s m) as [[s1 m1] evs1] eqn:Hr. injection H as <- <- <- <-.
    apply opus_step_frame in Hr as (_ & _ & _ & Hcl & _). unsettle. congruence.
  - destruct (send_step s) as [s1 evs1] eqn:Hr. injection H as <- <- <- <-.
    apply send_step_frame in Hr as (_ & _ & _ & _ & Hcl & _). unsettle. congruence.
Qed.

Lemma model_raises_step s m e :
  model_raises s m e -> o_pc (fst (fst (opus_step s m))) = OpusRaised e.
Proof.
  intros Hraise. unfold opus_step.
  destruct Hraise as [(Hpc & a & Ha & Hlen & He)
                     |[(c & rest & Hpc & He)
                      |(c & rest & tokens & m1 & Hpc & Hstep & Hlen & He)]];
    rewrite Hpc.
  - rewrite Ha. apply Nat.leb_le in Hlen. rewrite Hlen.
    destruct (ec_encode _ _) as [r m1]. simpl in He. subst r. reflexivity.
  - destruct (lm_gen_step c m) as [r m1]. simpl in He. subst r. reflexivity.
  - rewrite Hstep. unfold handle_tokens. rewrite Hlen, Nat.eqb_refl. simpl.
    destruct (ec_decode _ _) as [r m2]. simpl in He. subst r. reflexivity.
Qed.

(** C8, as amended: when a call of the model raises [e], the step of
    [opus_loop] ends the loop with [e] and leaves [close], the handler and
    the two other loops as they were; from then on [opus_loop] makes no
    call, so that the frame is not retried; [e] is set on the future of
    [gather] unless the future has an exception already, and in a run it
    has one exactly when [recv_loop] or [send_loop] raised before; the
    handler, resumed in [gather], leaves the [async with] with the
    exception of the future, which releases the lock, and changes nothing
    else; and no task other than [recv_loop] sets [close]. *)
Theorem model_failure_teardown (v : variant) (s : session) (m : model_t) (e : exn)
    (l : bool) :
  model_raises s m e ->
  let s1 := snd (fst (task_step v TOpus l m s)) in
  let first := match gather_exc s with Some e0 => e0 | None => e end in
  o_pc s1 = OpusRaised e
  /\ close s1 = close s /\ h_pc s1 = h_pc s /\ r_pc s1 = r_pc s /\ s_pc s1 = s_pc s
  /\ gather_exc s1 = Some first
  /\ (forall l2 m2, task_step v TOpus l2 m2 s1 = (l2, m2, s1, []))
  /\ (h_pc s = HGather ->
      forall l2 m2,
        handler_step l2 m2 s1 = (false, m2, set_h_pc (HRaised first) s1, [EvRelease]))
  /\ (forall t l2 m2 l3 m3 s3 evs3,
        t <> TRecv -> close s1 = false ->
        task_step v t l2 m2 s1 = (l3, m3, s3, evs3) -> close s3 = false)
  /\ (forall m0 sch i,
        sessions (run v m0 sch) !! i = Some s ->
        (gather_exc s = None ->
         (forall x, r_pc s <> RecvRaised x) /\ (forall x, s_pc s <> SendRaised x))
        /\ (forall e0, gather_exc s = Some e0 ->
                       r_pc s = RecvRaised e0 \/ s_pc s = SendRaised e0)).
Proof.
  intros Hraise s1 first.
  pose proof (model_raises_step s m e Hraise) as Hpc.
  pose proof (opus_step_gather_exc s m) as Hg.
  assert (Hnot : forall x, o_pc s <> OpusRaised x).
  { intros x Hx.
    destruct Hraise as [(Hp & _)|[(c & rest & Hp & _)|(c & rest & tk & m1 & Hp & _)]];
      congruence. }
  unfold s1. simpl.
  destruct (opus_step s m) as [[s1' m1] evs] eqn:Hstep. simpl in *.
  destruct (opus_step_frame _ _ _ _ _ Hstep) as (Hh & Hr & Hs & Hc & _).
  assert (Hg1 : gather_exc (settle TOpus s1') = Some first).
  { rewrite settle_gather_exc, Hg. unfold first. simpl. rewrite Hpc.
    destruct (gather_exc s); reflexivity. }
  unsettle.
  split; [exact Hpc|]. split; [exact Hc|]. split; [exact Hh|].
  split; [exact Hr|]. split; [exact Hs|]. split; [exact Hg1|].
  split; [|split; [|split]].
  - intros l2 m2. simpl.
    rewrite (opus_step_raised (settle TOpus s1') m2 e) by (unsettle; exact Hpc).
    unfold settle at 1. rewrite Hg1. reflexivity.
  - intros Hgat l2 m2. unfold handler_step. unsettle. rewrite Hh, Hgat.
    rewrite (gather_exc_raised _ _ Hg1). reflexivity.
  - intros t l2 m2 l3 m3 s3 evs3 Ht Hcl H3.
    eapply close_set_by_recv; eauto. unsettle. exact Hcl.
  - intros m0 sch i Hi.
    destruct (gather_inv_run v m0 sch i s Hi) as [Ha Hb]. split.
    + intros Hn. specialize (Hb Hn). unfold loop_raised in Hb.
      split; intros x Hx; apply Hb; eauto.
    + intros e0 He0. destruct (Ha e0 He0) as [Ho|[?|?]]; auto.
      destruct (Hnot e0 Ho).
Qed.

End Teardown.

(** ** The properties on the small instance *)

(** C1 on a run: two samples encoded, three in the buffer, five drained. *)
Lemma frame_conservation_witness :
  exists s : session (E := toy),
    sessions (run (E := toy) ServerOpus 0 sch_text) !! 0 = Some s
    /\ concat (encoded 0 (trace (run (E := toy) ServerOpus 0 sch_text))) ++ buffer s
       = concat (drained 0 (trace (run (E := toy) ServerOpus 0 sch_text))).
Proof.
  eexists. split; [vm_compute; reflexivity|].
  apply (frame_conservation (E := toy) ServerOpus 0 sch_text 0).
  vm_compute; reflexivity.
Defined.



(** C3 on a run: the first call of [recv_loop] comes right after the
    start-up calls. *)
Lemma startup_order_witness :
  exists rest,
    startup = startup ++ rest
    /\ Forall (fun c' => is_startup_call c' = false)
         (rest ++ [(TRecv, EvAppendBytes (E := toy) [x05])]).
Proof.
  apply (startup_order (E := toy) ServerOpus 0 sch_audio 0 startup []
           (TRecv, EvAppendBytes [x05])); vm_compute; reflexivity.
Defined.

(** C4, as stated, fails: in this run a kind-2 message is written to the
    transport by [opus_loop], not by [send_loop]. *)
Lemma text_written_by_opus_loop :
  trace (run (E := toy) ServerOpus 0 sch_text) !! 14
  = Some (0, TOpus, EvWsSend (E := toy) [x02; x20; x68; x69] true)
  /\ ~ (forall p i t msg ok,
          trace (run (E := toy) ServerOpus 0 sch_text) !! p
          = Some (i, t, EvWsSend (x02 :: msg) ok) ->
          t = TSend).
Proof.
  assert (Hl : trace (run (E := toy) ServerOpus 0 sch_text) !! 14
               = Some (0, TOpus, EvWsSend (E := toy) [x02; x20; x68; x69] true))
    by (vm_compute; reflexivity).
  split; [exact Hl|].
  intros H. specialize (H _ _ _ _ _ Hl). discriminate.
Qed.

(** C4, as amended, on a step: the text of token 11. *)
Lemma text_sent_by_process_loop_witness :
  exists ok,
    snd (opus_step (toy_session [] (Some [7; 8; 9]%Z) (OpusFor (E := toy) [11%Z])) 0)
    = [EvStep (E := toy) 11%Z; EvDecode [11%Z]; EvAppendPcm (E := toy) [11%Z];
       EvLog LvlInfo (MsgTextToken [32%N; 104%N; 105%N]);
       EvWsSend [x02; x20; x68; x69] ok].
Proof.
  apply (proj1 (text_sent_by_process_loop (E := toy) ServerOpus 0 [])
           (toy_session [] (Some [7; 8; 9]%Z) (OpusFor (E := toy) [11%Z])) 0
           11%Z [] 11%Z [11%Z] 1 [11%Z] 1 [x20; x68; x69]);
    reflexivity.
Defined.

(** C5 on a step: the text token 0 is reserved, the text of the token is
    not sent. *)
Lemma text_filtering_witness :
  ~ In (EvWsSend (E := toy) [x02; x20; x68; x69] true)
      (snd (opus_step (toy_session [] None (OpusFor (E := toy) [0%Z])) 0)).
Proof.
  apply (proj1 (text_filtering (E := toy)
                  (toy_session [] None (OpusFor (E := toy) [0%Z])) 0)
           0%Z [] 0%Z [0%Z] 1).
  - reflexivity.
  - reflexivity.
  - left. reflexivity.
Defined.

(** C6, as stated, fails: a text frame is logged at level error, not as a
    warning. *)
Lemma text_frame_logged_as_error :
  snd (recv_step (E := toy) ServerOpus (toy_session [InMsg text_frame] None (OpusSleep (E := toy))))
  = [EvLog LvlError MsgUnsupportedType]
  /\ ~ (exists m,
          snd (recv_step (E := toy) ServerOpus
                 (toy_session [InMsg text_frame] None (OpusSleep (E := toy))))
          = [EvLog LvlWarning m]).
Proof.
  split; [reflexivity|]. intros (m & Hm). discriminate.
Qed.

(** C6, as amended, on the message of kind 7. *)
Lemma ingest_dispatch_witness :
  recv_step (E := toy) ServerOpus (toy_session [InMsg unknown_frame] None (OpusSleep (E := toy)))
  = (toy_session [] None (OpusSleep (E := toy)), [EvLog LvlWarning (MsgUnknownKind 7)]).
Proof.
  apply (proj1 (proj2 (ingest_dispatch (E := toy) ServerOpus
                         (toy_session [InMsg unknown_frame] None (OpusSleep (E := toy)))
                         unknown_frame [] eq_refl eq_refl))
           I x07 [x01]).
  - discriminate.
  - reflexivity.
Defined.

(** C7, as stated, fails: on the empty message nothing is raised, by either
    server; the loop logs a warning and waits for the next message. *)
Lemma empty_message_not_raised :
  recv_body (E := toy) ServerOpus empty_frame [] = ([], [EvLog LvlWarning MsgEmptyMessage], Continue)
  /\ recv_body (E := toy) ServerAiohttp empty_frame []
     = ([], [EvLog LvlWarning MsgEmptyMessage], Continue)
  /\ ~ (exists v e, snd (recv_body (E := toy) v empty_frame []) = Raise e)
  /\ r_pc (fst (recv_step (E := toy) ServerOpus
                  (toy_session [InMsg empty_frame] None (OpusSleep (E := toy)))))
     = RecvWaiting.
Proof.
  repeat split; try reflexivity.
  intros (v & e & H). destruct v; discriminate.
Qed.

(** C7, as amended, on the empty message: a warning, and the loop waits
    for the next message. *)
Lemma ingest_never_raises_witness :
  recv_step (E := toy) ServerOpus
    (toy_session [InMsg empty_frame] None (OpusSleep (E := toy)))
  = (toy_session [] None (OpusSleep (E := toy)), [EvLog LvlWarning MsgEmptyMessage]).
Proof.
  apply (proj1 (proj2 (proj2 (ingest_never_raises (E := toy) ServerOpus empty_frame []))
                  (toy_session [InMsg empty_frame] None (OpusSleep (E := toy))) []
                  eq_refl eq_refl)).
  - exact I.
  - reflexivity.
Defined.

(** C8, as stated, fails: [encode] raised, the exception left [gather] and
    the lock was released, yet [close] is not set and [recv_loop] and
    [send_loop] have not returned. *)
Lemma model_failure_leaves_loops_running :
  exists s : session (E := toy),
    sessions (run (E := toy) ServerOpus 0 sch_model_failure) !! 0 = Some s
    /\ trace (run (E := toy) ServerOpus 0 sch_model_failure) !! 9
       = Some (0, TOpus, EvEncode (E := toy) [255; 255]%Z)
    /\ trace (run (E := toy) ServerOpus 0 sch_model_failure) !! 10
       = Some (0, THandler, EvRelease)
    /\ o_pc s = OpusRaised (ExternalError 0)
    /\ h_pc s = HRaised (ExternalError 0)
    /\ lock (run (E := toy) ServerOpus 0 sch_model_failure) = false
    /\ close s = false
    /\ r_pc s = RecvWaiting
    /\ s_pc s = SendSleep.
Proof.
  eexists. split; [vm_compute; reflexivity|].
  repeat split; vm_compute; reflexivity.
Qed.

(** C8, as amended, on the failing frame: no loop raised before, the
    future of [gather] takes the exception of [encode]. *)
Lemma model_failure_teardown_witness :
  o_pc (snd (fst (task_step (E := toy) ServerOpus TOpus true 0
                    (toy_session [] (Some [255; 255]%Z) (OpusWhile (E := toy))))))
  = OpusRaised (ExternalError 0)
  /\ gather_exc (snd (fst (task_step (E := toy) ServerOpus TOpus true 0
                    (toy_session [] (Some [255; 255]%Z) (OpusWhile (E := toy))))))
     = Some (ExternalError 0).
Proof.
  pose proof (model_failure_teardown (E := toy) ServerOpus
                (toy_session [] (Some [255; 255]%Z) (OpusWhile (E := toy))) 0
                (ExternalError 0) true) as H.
  cbv zeta in H. destruct H as (H1 & _ & _ & _ & _ & H2 & _).
  - left. split; [reflexivity|]. exists [255; 255]%Z.
    split; [reflexivity|]. split; [|reflexivity]. apply le_n.
  - split; [exact H1|exact H2].
Defined.

(** C10, as stated, fails: [opus_loop] is suspended in the send of a text
    message while the buffer holds three samples, one more than a frame. *)
Lemma buffer_full_at_text_send :
  exists s : session (E := toy),
    sessions (run (E := toy) ServerOpus 0 sch_text) !! 0 = Some s
    /\ opus_suspended s = true
    /\ length (buffer s) = 3
    /\ ~ length (buffer s) < @frame_size toy.
Proof.
  eexists. split; [vm_compute; reflexivity|]. repeat split. simpl. lia.
Qed.

(** C10, as amended, on a run. *)
Lemma frame_size_invariant_witness :
  exists s : session (E := toy),
    sessions (run (E := toy) ServerOpus 0 sch_text) !! 0 = Some s
    /\ (at_iteration_end s = true -> length (buffer s) < @frame_size toy)
    /\ Forall (fun chunk => length chunk = @frame_size toy)
         (encoded 0 (trace (run (E := toy) ServerOpus 0 sch_text))).
Proof.
  eexists. split; [vm_compute; reflexivity|].
  apply (frame_size_invariant (E := toy) ServerOpus 0 sch_text 0).
  - repeat constructor.
  - vm_compute; reflexivity.
Defined.

(** * Further properties *)

(** ** The shape of a session *)

Section ShapeProofs.
Context {E : Collaborators}.

Lemma gather_raised s e :
  gather_inv s -> gather s = GatherRaised e -> loop_raised s.
Proof.
  unfold gather, loop_raised. intros [Ha _] H.
  destruct (gather_exc s) as [e0|] eqn:Hg.
  - destruct (Ha e0 eq_refl) as [?|[?|?]]; eauto.
  - destruct (o_pc s), (r_pc s), (s_pc s); discriminate.
Qed.

(** What a turn of [recv_loop] does to [close]: nothing while the loop
    goes on, and it sets it when the loop ends. *)
Lemma recv_step_close v s s' evs :
  recv_step v s = (s', evs) ->
  (r_pc s' = r_pc s /\ close s' = close s)
  \/ (r_pc s = RecvWaiting /\ close s' = true
      /\ (r_pc s' = RecvDone
          \/ exists e, r_pc s' = RecvRaised e
                       /\ (v = ServerOpus -> e <> WebSocketException))).
Proof.
  unfold recv_step, recv_except, recv_finally. intros H.
  destruct (r_pc s) eqn:Hpc; try (injection H as <- <-; left; auto; fail).
  destruct (websocket_next (websocket s)) as [[msg| |e] w].
  - pose proof (recv_body_no_raise v msg (opus_reader (set_websocket w s))) as Hno.
    destruct (recv_body v msg _) as [[r evs0] c]. simpl in Hno.
    destruct c as [| |e].
    + injection H as <- <-. left. simpl. auto.
    + injection H as <- <-. right. simpl. auto.
    + destruct (Hno e eq_refl).
  - injection H as <- <-. right. simpl. auto.
  - right. destruct v, e; injection H as <- <-; simpl;
      repeat split; auto; right; eexists; split; eauto; discriminate.
Qed.

Lemma session_shape_run v m0 sch i s :
  sessions (run v m0 sch) !! i = Some s -> session_shape v s.
Proof.
  intros Hi.
  refine (proj2 (session_invariant v
                   (fun _ s _ => gather_inv s /\ session_shape v s) _ _ _
                   m0 sch i s Hi)).
  - intros _ w _ _. split.
    { unfold gather_inv, loop_raised. simpl. split; [discriminate|].
      intros _ [(e & H)|[(e & H)|(e & H)]]; discriminate. }
    unfold session_shape, idle, recv_ended, before_gather.
    destruct v; simpl; repeat split; auto; try discriminate;
      try (intros [?|[? ?]]; discriminate).
  - auto.
  - clear. intros _ s _ t l m l' m' s' evs Hstep (HG & HS1 & HS2 & HS4 & HS5).
    split; [exact (gather_inv_step _ _ _ _ _ _ _ _ _ Hstep HG)|].
    destruct t; simpl in Hstep.
    + (* the handler *)
      unfold handler_step, enter_lock in Hstep.
      unfold session_shape, before_gather, idle, recv_ended, loop_raised in *.
      destruct (h_pc s) eqn:Hpc;
        repeat match type of Hstep with
          | context [if ?b then _ else _] => destruct b
          | context [websocket_send ?x ?y] => destruct (websocket_send x y) as [[?|] ?]
          | context [gather ?x] => destruct (gather x) eqn:Hg
          end;
        simplify_eq Hstep; intros; subst; simpl; rewrite ?Hpc;
        try (specialize (HS1 eq_refl); destruct HS1 as (Hr & Ho & Hs));
        (split; [|split; [|split]]); auto; try discriminate;
        try (intros ? [= <-]; auto; fail);
        try (rewrite Hr; split; [discriminate|intros [?|[? ?]]; discriminate]);
        try (split; [discriminate|intros [?|[? ?]]; discriminate]).
      * split; intros H; [|destruct H as [?|[? ?]]; discriminate].
        apply HS2 in H. rewrite Hr in H. destruct H as [?|[? ?]]; discriminate.
      * intros e0 [= <-]. right. apply (gather_raised _ _ HG) in Hg. exact Hg.
    + (* recv_loop *)
      destruct (recv_step v s) as [s1 evs1] eqn:Hr. injection Hstep as <- <- <- <-.
      pose proof (recv_step_frame _ _ _ _ Hr) as (Hh & Ho & Hs & _ & Hidle & _).
      apply recv_step_close in Hr.
      unfold session_shape, before_gather, idle, recv_ended, loop_raised in *. unsettle.
      rewrite Hh, Ho, Hs.
      destruct Hr as [[Hr Hc]|(Hw & Hc & Hend)].
      * rewrite Hr, Hc. auto.
      * split; [|split; [|split]].
        -- intros Hb. destruct (HS1 Hb) as (Hr0 & _). congruence.
        -- split; [intros _|intros _; exact Hc].
           destruct Hend as [?|(e & ? & _)]; eauto.
        -- intros e He. destruct (HS4 e He) as [(Hr0 & _)|[Hx|[(e' & Hx)|Hx]]];
             [congruence|auto|congruence|auto].
        -- intros Hv Hx. destruct Hend as [?|(e & He & Hne)]; [congruence|].
           rewrite He in Hx. injection Hx as ->. apply (Hne Hv). reflexivity.
    + (* opus_loop *)
      destruct (opus_step s m) as [[s1 m1] evs1] eqn:Hr. injection Hstep as <- <- <- <-.
      pose proof (opus_step_frame _ _ _ _ _ Hr) as (Hh & Hrp & Hs & Hc & Hidle).
      unfold session_shape, before_gather, idle, recv_ended, loop_raised in *. unsettle.
      rewrite Hh, Hrp, Hs, Hc.
      split; [|split; [|split]]; auto.
      * intros Hb. destruct (HS1 Hb) as (? & Ho & ?). destruct (Hidle Ho) as [-> _]. auto.
      * intros e He.
        destruct (HS4 e He) as [(Hr0 & Ho & Hs0)|[(e' & Hx)|Hx]]; [| |auto].
        -- destruct (Hidle Ho) as [-> _]. auto.
        -- rewrite (opus_step_raised s m e' Hx) in Hr. injection Hr as <- _ _. eauto.
    + (* send_loop *)
      destruct (send_step s) as [s1 evs1] eqn:Hr. injection Hstep as <- <- <- <-.
      pose proof (send_step_frame _ _ _ Hr) as (Hh & Ho & Hrp & _ & Hc & Hidle).
      unfold session_shape, before_gather, idle, recv_ended, loop_raised in *. unsettle.
      rewrite Hh, Hrp, Ho, Hc.
      split; [|split; [|split]]; auto.
      * intros Hb. destruct (HS1 Hb) as (? & ? & Hs). destruct (Hidle Hs) as [-> _]. auto.
      * intros e He.
        destruct (HS4 e He) as [(Hr0 & Ho0 & Hs0)|[Hx|[Hx|(e' & Hx)]]]; auto.
        -- destruct (Hidle Hs0) as [-> _]. auto.
        -- right. right. right. exists e'.
           unfold send_step in Hr. rewrite Hx in Hr. injection Hr as <- _. exact Hx.
Qed.

End ShapeProofs.

(** ** Sessions, the lock and the messages in every run *)

Section RunProperties.
Context {E : Collaborators}.

(** X1: the lock is held exactly when one connection is inside
    [async with self.lock]: it is never left taken by a handler that
    returned or raised, and never free while a handler is inside. *)
Theorem lock_held_iff_inside (v : variant) (m0 : model_t) (sch : list action) :
  holders (sessions (run v m0 sch)) = (if lock (run v m0 sch) then 1 else 0).
Proof. apply lock_inv_run. Qed.

(** X2: in every run, [close] is set for a connection exactly when its
    [recv_loop] has returned or raised. *)
Theorem close_iff_recv_ended (v : variant) (m0 : model_t) (sch : list action)
    (i : nat) (s : session) :
  sessions (run v m0 sch) !! i = Some s ->
  (close s = true <-> r_pc s = RecvDone \/ exists e, r_pc s = RecvRaised e).
Proof. intros Hi. apply (session_shape_run v m0 sch i s Hi). Qed.

(** X3: under websockets (server_opus.py) [recv_loop] never ends with a
    WebSocketException: a dropped connection is logged and the loop
    returns, so that [gather] does not raise because of it. *)
Theorem dropped_connection_is_caught (m0 : model_t) (sch : list action)
    (i : nat) (s : session) :
  sessions (run ServerOpus m0 sch) !! i = Some s ->
  r_pc s <> RecvRaised WebSocketException
  /\ (gather s = GatherRaised WebSocketException ->
      o_pc s = OpusRaised WebSocketException
      \/ s_pc s = SendRaised WebSocketException).
Proof.
  intros Hi.
  destruct (session_shape_run ServerOpus m0 sch i s Hi) as (_ & _ & _ & H5).
  specialize (H5 eq_refl). split; [exact H5|].
  destruct (gather_inv_run ServerOpus m0 sch i s Hi) as [Ha _].
  unfold gather. destruct (gather_exc s) as [e|] eqn:Hg.
  - intros [= ->]. destruct (Ha _ eq_refl) as [?|[?|?]]; auto. contradiction.
  - destruct (o_pc s), (r_pc s), (s_pc s); discriminate.
Qed.

(** X6: a connection whose handler returned is inert: resuming any of its
    tasks changes neither the lock, the model nor the connection, and
    makes no call. *)
Theorem closed_session_inert (v : variant) (m0 : model_t) (sch : list action)
    (i : nat) (s : session) :
  sessions (run v m0 sch) !! i = Some s ->
  h_pc s = HDone ->
  forall t l m, task_step v t l m s = (l, m, s, []).
Proof.
  intros Hi Hd t l m.
  destruct (closed_run v m0 sch i s Hi Hd) as (Hr & Ho & Hs).
  destruct t; simpl.
  - unfold handler_step. rewrite Hd. reflexivity.
  - unfold recv_step. rewrite Hr.
    rewrite settle_none by (simpl; rewrite Hr; reflexivity). reflexivity.
  - unfold opus_step. rewrite Ho.
    rewrite settle_none by (simpl; rewrite Ho; reflexivity). reflexivity.
  - unfold send_step. rewrite Hs.
    rewrite settle_none by (simpl; rewrite Hs; reflexivity). reflexivity.
Qed.

(** A step of [opus_loop] that makes a call starts inside the frame
    loop or in the sleep. *)
Lemma opus_step_calls s m e :
  In e (snd (opus_step s m)) ->
  o_pc s = OpusSleep \/ o_pc s = OpusWhile \/ exists cols, o_pc s = OpusFor cols.
Proof.
  unfold opus_step.
  destruct (o_pc s) eqn:Hpc; simpl; eauto; intros [].
Qed.

(** X7: in every run, a connection whose [opus_loop] can still make a
    call is inside [async with self.lock], unless its [recv_loop] or its
    [send_loop] has raised. *)
Theorem model_used_under_lock (v : variant) (m0 : model_t) (sch : list action)
    (i : nat) (s : session) (m : model_t) (e : event) :
  sessions (run v m0 sch) !! i = Some s ->
  In e (snd (opus_step s m)) ->
  holding s = true
  \/ (exists x, r_pc s = RecvRaised x)
  \/ (exists x, s_pc s = SendRaised x).
Proof.
  intros Hi Hin. apply opus_step_calls in Hin.
  destruct (session_shape_run v m0 sch i s Hi) as (H1 & _ & H4 & _).
  assert (Hactive : o_pc s <> OpusIdle /\ o_pc s <> OpusDone
                    /\ forall x, o_pc s <> OpusRaised x).
  { destruct Hin as [H|[H|[cols H]]]; rewrite H; repeat split; discriminate. }
  destruct Hactive as (Hni & Hnd & Hnr).
  unfold holding, before_gather, idle, loop_raised in *.
  destruct (h_pc s) eqn:Hpc; auto;
    try (destruct (H1 eq_refl) as (_ & Ho & _); contradiction).
  - destruct (closed_run v m0 sch i s Hi Hpc) as (_ & Ho & _). contradiction.
  - destruct (H4 e0 eq_refl) as [(_ & Ho & _)|[(x & Hx)|[Hx|Hx]]].
    + contradiction.
    + destruct (Hnr x Hx).
    + auto.
    + auto.
Qed.

Lemma encoded_total (chunks : list (list sample)) n :
  Forall (fun ch => length ch = n) chunks ->
  length (concat chunks) = n * length chunks.
Proof.
  induction 1 as [|ch chunks Hch _ IH]; simpl; [lia|].
  rewrite length_app, IH, Hch. lia.
Qed.

(** X5: when a frame holds at least one sample then, at the boundary of
    every iteration of the outer loop of [opus_loop], the number of
    frames passed to [encode] is the number of samples drained so far
    divided by [frame_size], and the buffer holds the remainder. *)
Theorem frames_encoded_count (v : variant) (m0 : model_t) (sch : list action)
    (i : nat) (s : session) :
  0 < frame_size ->
  sessions (run v m0 sch) !! i = Some s ->
  at_iteration_end s = true ->
  length (encoded i (trace (run v m0 sch)))
  = length (concat (drained i (trace (run v m0 sch)))) / frame_size
  /\ length (buffer s)
     = length (concat (drained i (trace (run v m0 sch)))) mod frame_size.
Proof.
  intros Hfs Hi Hend.
  destruct (buffer_inv_run v m0 sch i s Hi) as (_ & HB & _ & HD & HE).
  specialize (HE Hfs Hend).
  rewrite <- HB, length_app, (encoded_total _ _ HD).
  split.
  - apply Nat.div_unique with (r := length (buffer s)); lia.
  - apply Nat.mod_unique with (q := length (encoded i (trace (run v m0 sch)))); lia.
Qed.

(** What [send_loop] sends: the bytes it has just read, which are not
    empty, after the kind byte 1. *)
Lemma send_step_send s msg ok :
  In (EvWsSend msg ok) (snd (send_step s)) ->
  exists b, msg = x01 :: b /\ b <> []
            /\ snd (send_step s) = [EvReadBytes b; EvWsSend msg ok].
Proof.
  unfold send_step.
  destruct (s_pc s); simpl; try (intros []; fail).
  destruct (read_bytes _) as [b w].
  destruct (0 <? length b) eqn:Hlen.
  - assert (b <> []) by (intros ->; discriminate).
    destruct (websocket_send _ _) as [[e|] t]; simpl;
      intros [H0|[H0|[]]]; try discriminate; injection H0 as <- <-; eauto.
  - simpl. intros [H0|[]]. discriminate.
Qed.

Lemma task_step_well_formed v t l m s msg ok :
  In (EvWsSend msg ok) (snd (task_step v t l m s)) -> well_formed msg.
Proof.
  intros Hin. destruct t; simpl in Hin.
  - pose proof (handler_step_emits l m s) as Hem.
    rewrite Forall_forall in Hem. apply list_elem_of_In, Hem in Hin.
    left. exact Hin.
  - pose proof (recv_step_emits v s) as Hem.
    destruct (recv_step v s) as [s1 evs]. simpl in *.
    rewrite Forall_forall in Hem. apply list_elem_of_In, Hem in Hin.
    destruct Hin.
  - destruct (opus_step s m) as [[s1 m1] evs] eqn:Hstep. simpl in Hin.
    assert (Hin' : In (EvWsSend msg ok) (snd (opus_step s m))) by (rewrite Hstep; exact Hin).
    apply opus_step_send in Hin' as (c & rest & tk & audio & m2 & _ & _ & Hres & Hmsg).
    apply text_message_kind in Hmsg as (b & -> & Hb).
    right. right. eauto.
  - destruct (send_step s) as [s1 evs] eqn:Hstep. simpl in Hin.
    assert (Hin' : In (EvWsSend msg ok) (snd (send_step s))) by (rewrite Hstep; exact Hin).
    apply send_step_send in Hin' as (b & -> & Hb & _).
    right. left. eauto.
Qed.

(** X4: every message the server hands to the socket, in every run, is
    the one-byte handshake, or the byte 1 followed by at least one byte
    of audio, or the byte 2 followed by the UTF-8 text of a token that is
    not reserved. *)
Theorem outbound_well_formed (v : variant) (m0 : model_t) (sch : list action)
    (i : nat) (t : task) (msg : bytes) (ok : bool) :
  In (i, t, EvWsSend msg ok) (trace (run v m0 sch)) -> well_formed msg.
Proof.
  revert i t msg ok.
  apply (run_invariant v (fun sv => forall i t msg ok,
           In (i, t, EvWsSend msg ok) (trace sv) -> well_formed msg)).
  - intros _ i t msg ok [].
  - intros sv w IH. exact IH.
  - intros sv i t s IH Hi j u msg ok.
    pose proof (task_step_well_formed v t (lock sv) (model sv) s msg ok) as Hwf.
    destruct (task_step v t (lock sv) (model sv) s) as [[[l m] s'] evs]. simpl in *.
    rewrite in_app_iff, In_tag. intros [Hin|(_ & _ & Hin)]; eauto.
Qed.

End RunProperties.

(** ** The end of a session *)

Section TeardownProofs.
Context {E : Collaborators}.

Lemma busy_insert (l : list session) i s' :
  existsb busy l = false -> busy s' = false -> existsb busy (<[i := s']> l) = false.
Proof.
  revert i. induction l as [|x l IH]; intros [|i] Hl Hs; simpl in *; auto.
  - apply orb_false_iff in Hl as [_ Hl]. rewrite Hs, Hl. reflexivity.
  - apply orb_false_iff in Hl as [Hx Hl]. rewrite Hx. simpl. auto.
Qed.

(** While no task is in the middle of a block any task may run. *)
Lemma server_step_quiet v sv i t s :
  existsb busy (sessions sv) = false ->
  sessions sv !! i = Some s ->
  server_step v sv (Run i t) = commit sv i t (task_step v t (lock sv) (model sv) s).
Proof.
  intros Hq Hi. simpl. unfold may_run. rewrite Hq, Hi. reflexivity.
Qed.

(** X8: tear-down on disconnect.  When the client is gone ([async for]
    ends) while the three loops of a connection wait with nothing to
    drain, resuming each loop once and then the handler ends the session:
    [close] is set, the three loops and the handler return, the lock is
    free, the model is untouched and the other connections are as they
    were; the only calls made are the two log lines, one empty read of
    each adapter and the release.  (No loop has raised: the future of
    [gather] has no exception.) *)
Theorem teardown_on_disconnect (v : variant) (sv : server) (i : nat) (s : session)
    (w : websocket_t) (r : OpusStreamReader_t) (wr : OpusStreamWriter_t) :
  existsb busy (sessions sv) = false ->
  sessions sv !! i = Some s ->
  h_pc s = HGather -> r_pc s = RecvWaiting -> o_pc s = OpusSleep ->
  s_pc s = SendSleep -> gather_exc s = None ->
  websocket_next (websocket s) = (InEnd, w) ->
  read_pcm (opus_reader s) = ([], r) ->
  read_bytes (opus_writer s) = ([], wr) ->
  lock (exec v (teardown i) sv) = false
  /\ model (exec v (teardown i) sv) = model sv
  /\ trace (exec v (teardown i) sv)
     = trace sv ++ [(i, TRecv, EvLog LvlInfo MsgConnectionClosed);
                    (i, TOpus, EvReadPcm []);
                    (i, TSend, EvReadBytes []);
                    (i, THandler, EvRelease);
                    (i, THandler, EvLog LvlInfo MsgDoneWithConnection)]
  /\ (exists s',
        sessions (exec v (teardown i) sv) !! i = Some s'
        /\ h_pc s' = HDone /\ close s' = true
        /\ r_pc s' = RecvDone /\ o_pc s' = OpusDone /\ s_pc s' = SendDone)
  /\ (forall j, j <> i ->
        sessions (exec v (teardown i) sv) !! j = sessions sv !! j).
Proof.
  intros Hq Hi Hh Hr Ho Hs Hg Hnext Hpcm Hbytes.
  assert (Hlt : i < length (sessions sv)) by (eapply lookup_lt_Some; eauto).
  unfold exec, teardown. cbn [fold_left].
  (* recv_loop *)
  rewrite (server_step_quiet v sv i TRecv s Hq Hi).
  assert (H1 : task_step v TRecv (lock sv) (model sv) s
               = (lock sv, model sv,
                  set_r_pc RecvDone (set_close true (set_websocket w s)),
                  [EvLog LvlInfo MsgConnectionClosed])).
  { simpl. unfold recv_step. rewrite Hr, Hnext. simpl.
    rewrite settle_none by reflexivity. reflexivity. }
  rewrite H1. clear H1.
  set (s1 := set_r_pc RecvDone (set_close true (set_websocket w s))).
  set (sv1 := commit sv i TRecv _).
  assert (Hq1 : existsb busy (sessions sv1) = false).
  { apply busy_insert; [exact Hq|]. unfold busy. simpl. rewrite Ho. reflexivity. }
  assert (Hi1 : sessions sv1 !! i = Some s1)
    by (apply list_lookup_insert_eq; exact Hlt).
  (* opus_loop *)
  rewrite (server_step_quiet v sv1 i TOpus s1 Hq1 Hi1).
  assert (H2 : task_step v TOpus (lock sv1) (model sv1) s1
               = (lock sv, model sv, set_o_pc OpusDone (set_opus_reader r s1),
                  [EvReadPcm []])).
  { simpl. unfold opus_step. simpl. rewrite Ho, Hpcm. simpl.
    rewrite settle_none by reflexivity. reflexivity. }
  rewrite H2. clear H2.
  set (s2 := set_o_pc OpusDone (set_opus_reader r s1)).
  set (sv2 := commit sv1 i TOpus _).
  assert (Hq2 : existsb busy (sessions sv2) = false).
  { apply busy_insert; [exact Hq1|]. reflexivity. }
  assert (Hi2 : sessions sv2 !! i = Some s2).
  { apply list_lookup_insert_eq. simpl. rewrite length_insert. exact Hlt. }
  (* send_loop *)
  rewrite (server_step_quiet v sv2 i TSend s2 Hq2 Hi2).
  assert (H3 : task_step v TSend (lock sv2) (model sv2) s2
               = (lock sv, model sv, set_s_pc SendDone (set_opus_writer wr s2),
                  [EvReadBytes []])).
  { simpl. unfold send_step. simpl. rewrite Hs, Hbytes. simpl.
    rewrite settle_none by reflexivity. reflexivity. }
  rewrite H3. clear H3.
  set (s3 := set_s_pc SendDone (set_opus_writer wr s2)).
  set (sv3 := commit sv2 i TSend _).
  assert (Hq3 : existsb busy (sessions sv3) = false).
  { apply busy_insert; [exact Hq2|]. reflexivity. }
  assert (Hi3 : sessions sv3 !! i = Some s3).
  { apply list_lookup_insert_eq. simpl. rewrite !length_insert. exact Hlt. }
  (* the handler *)
  rewrite (server_step_quiet v sv3 i THandler s3 Hq3 Hi3).
  assert (H4 : task_step v THandler (lock sv3) (model sv3) s3
               = (false, model sv, set_h_pc HDone s3,
                  [EvRelease; EvLog LvlInfo MsgDoneWithConnection])).
  { simpl. unfold handler_step, gather. simpl. rewrite Hh, Hg. reflexivity. }
  rewrite H4. clear H4.
  simpl. repeat split.
  - rewrite <- !app_assoc. reflexivity.
  - exists (set_h_pc HDone s3). split; [|repeat split].
    apply list_lookup_insert_eq. rewrite !length_insert. exact Hlt.
  - intros j Hj. rewrite !list_lookup_insert_ne by congruence. reflexivity.
Qed.

(** X15: once [close] is set, [send_loop] is over after two resumptions
    at most: it returns, or the one send it may still make raises. *)
Theorem send_loop_exits_after_close (s : session) :
  close s = true ->
  s_pc s <> SendIdle ->
  let s2 := fst (send_step (fst (send_step s))) in
  s_pc s2 = SendDone \/ exists e, s_pc s2 = SendRaised e.
Proof.
  intros Hc Hpc.
  assert (H1 : s_pc (fst (send_step s)) = SendDone
               \/ (exists e, s_pc (fst (send_step s)) = SendRaised e)
               \/ s_pc (fst (send_step s)) = SendAwaitSend).
  { unfold send_step, send_top. rewrite Hc.
    destruct (s_pc s) eqn:Hs; try contradiction; simpl; eauto.
    destruct (read_bytes (opus_writer s)) as [b w].
    destruct (0 <? length b); [|simpl; rewrite Hc; auto].
    destruct (websocket_send _ _) as [[e|] t]; simpl; eauto. }
  destruct (send_step s) as [s1 evs] eqn:Hstep. simpl in *.
  apply send_step_frame in Hstep as (_ & _ & _ & _ & Hc1 & _).
  rewrite Hc in Hc1.
  unfold send_step, send_top.
  destruct H1 as [H1|[[e H1]|H1]]; rewrite H1; simpl; eauto.
  rewrite Hc1. simpl. auto.
Qed.

(** The same for [opus_loop] when it is at the head of its outer loop or
    wakes up to an adapter with nothing decoded. *)
Lemma opus_loop_exits_after_close s m r :
  close s = true ->
  o_pc s = OpusStart \/ (o_pc s = OpusSleep /\ read_pcm (opus_reader s) = ([], r)) ->
  o_pc (fst (fst (opus_step s m))) = OpusDone.
Proof.
  intros Hc [Hpc|[Hpc Hr]]; unfold opus_step, opus_top; rewrite Hpc.
  - simpl. rewrite Hc. reflexivity.
  - rewrite Hr. simpl. rewrite Hc. reflexivity.
Qed.

End TeardownProofs.

(** ** The warm-up and the benchmark *)

Section WarmupProofs.
Context {E : Collaborators}.

Lemma encode_calls_app evs1 evs2 :
  encode_calls (evs1 ++ evs2) = encode_calls evs1 ++ encode_calls evs2.
Proof.
  induction evs1 as [|e evs1 IH]; simpl; [reflexivity|].
  destruct e; simpl; congruence.
Qed.

Lemma warmup_columns_calls cs m :
  encode_calls (snd (warmup_columns cs m)) = []
  /\ length (decode_calls (snd (warmup_columns cs m)))
     <= length (step_calls (snd (warmup_columns cs m)))
  /\ (fst (fst (warmup_columns cs m)) = None ->
      step_calls (snd (warmup_columns cs m)) = cs).
Proof.
  revert m. induction cs as [|c cs IH]; intros m; simpl.
  - repeat split; auto.
  - destruct (lm_gen_step c m) as [[e|[tokens|]] m1]; simpl.
    + repeat split; auto; try (intros; discriminate).
    + destruct (ec_decode _ _) as [[e|pcm] m2]; simpl.
      * repeat split; auto; try (intros; discriminate).
      * specialize (IH m2).
        destruct (warmup_columns cs m2) as [[r m3] evs]. simpl in *.
        destruct IH as (He & Hd & Hs). repeat split; auto; [lia|].
        intros Hr. rewrite (Hs Hr). reflexivity.
    + specialize (IH m1).
      destruct (warmup_columns cs m1) as [[r m3] evs]. simpl in *.
      destruct IH as (He & Hd & Hs). repeat split; auto.
      intros Hr. rewrite (Hs Hr). reflexivity.
Qed.

Lemma decode_calls_app evs1 evs2 :
  decode_calls (evs1 ++ evs2) = decode_calls evs1 ++ decode_calls evs2.
Proof.
  induction evs1 as [|e evs1 IH]; simpl; [reflexivity|].
  destruct e; simpl; congruence.
Qed.

Lemma step_calls_app evs1 evs2 :
  step_calls (evs1 ++ evs2) = step_calls evs1 ++ step_calls evs2.
Proof.
  induction evs1 as [|e evs1 IH]; simpl; [reflexivity|].
  destruct e; simpl; congruence.
Qed.

Lemma warmup_chunks_calls n zero m :
  Forall (fun chunk => chunk = replicate frame_size zero)
    (encode_calls (snd (warmup_chunks n zero m)))
  /\ length (encode_calls (snd (warmup_chunks n zero m))) <= n
  /\ (0 < n -> 1 <= length (encode_calls (snd (warmup_chunks n zero m))))
  /\ (fst (fst (warmup_chunks n zero m)) = None ->
      length (encode_calls (snd (warmup_chunks n zero m))) = n)
  /\ length (decode_calls (snd (warmup_chunks n zero m)))
     <= length (step_calls (snd (warmup_chunks n zero m))).
Proof.
  revert m. induction n as [|n IH]; intros m; simpl.
  - split; [constructor|]. split; [lia|]. split; [lia|]. split; [reflexivity|lia].
  - destruct (ec_encode _ m) as [[e|cs] m1]; simpl.
    + split; [repeat constructor|]. split; [lia|]. split; [lia|].
      split; [discriminate|lia].
    + pose proof (warmup_columns_calls cs m1) as (Hce & Hcd & _).
      destruct (warmup_columns cs m1) as [[[e|] m2] evs]; simpl in *.
      * rewrite Hce. simpl. split; [repeat constructor|]. split; [lia|].
        split; [lia|]. split; [discriminate|lia].
      * specialize (IH m2).
        destruct (warmup_chunks n zero m2) as [[r m3] evs']. simpl in *.
        destruct IH as (Hall & Hle & _ & Hex & Hdec).
        rewrite encode_calls_app, decode_calls_app, step_calls_app, Hce, !length_app.
        simpl. split; [constructor; [reflexivity|exact Hall]|].
        split; [lia|]. split; [lia|]. split; [|lia].
        intros Hr. rewrite (Hex Hr). reflexivity.
Qed.

(** X9: the warm-up passes to [encode] only frames of [frame_size]
    samples of silence, at least one and at most four of them, and
    exactly four when no call raises (so that fewer than four are passed
    only when a call raised); it never decodes more often than it
    steps. *)
Theorem warmup_calls (zero : sample) (m : model_t) :
  Forall (fun chunk => chunk = replicate frame_size zero)
    (encode_calls (snd (warmup zero m)))
  /\ 1 <= length (encode_calls (snd (warmup zero m))) <= 4
  /\ (fst (fst (warmup zero m)) = None ->
      length (encode_calls (snd (warmup zero m))) = 4)
  /\ (length (encode_calls (snd (warmup zero m))) < 4 ->
      exists e, fst (fst (warmup zero m)) = Some e)
  /\ length (decode_calls (snd (warmup zero m)))
     <= length (step_calls (snd (warmup zero m))).
Proof.
  destruct (warmup_chunks_calls 4 zero m) as (Hall & Hle & Hge & Hex & Hdec).
  unfold warmup.
  split; [exact Hall|]. split; [split; [apply Hge; lia|exact Hle]|].
  split; [exact Hex|]. split; [|exact Hdec].
  intros Hlt. destruct (fst (fst (warmup_chunks 4 zero m))) as [e|]; [eauto|].
  specialize (Hex eq_refl). lia.
Qed.

(** What one step of the benchmark adds: at most one frame of audio, text
    only together with audio and only for a token that is not reserved;
    it makes one [encode] call, on 1920 samples of silence. *)
Lemma run_step_adds zero b m :
  let '(r, b', _, evs) := run_step zero b m in
  exists a t,
    main_audio b' = main_audio b ++ a /\ main_text b' = main_text b ++ t
    /\ length t <= length a /\ length a <= 1
    /\ (r <> None -> a = [])
    /\ Forall (fun x => exists tk, reserved tk = false /\ x = token_text tk) t
    /\ encode_calls evs = [replicate 1920 zero].
Proof.
  unfold run_step. cbv zeta.
  remember (replicate 1920 zero) as chunk eqn:Hchunk.
  assert (Hnone : forall (e : exn) evs, encode_calls evs = [chunk] ->
            exists a t,
              main_audio b = main_audio b ++ a /\ main_text b = main_text b ++ t
              /\ length t <= length a /\ length a <= 1
              /\ (Some e <> None -> a = [])
              /\ Forall (fun x => exists tk, reserved tk = false /\ x = token_text tk) t
              /\ encode_calls evs = [chunk]).
  { intros e evs Hev. exists [], []. rewrite !app_nil_r. simpl.
    split; [reflexivity|]. split; [reflexivity|]. split; [lia|]. split; [lia|].
    split; [reflexivity|]. split; [constructor|exact Hev]. }
  destruct (ec_encode chunk m) as [[e|cs] m1]; [apply Hnone; reflexivity|].
  destruct cs as [|c [|c' cs]]; try (apply Hnone; reflexivity).
  destruct (lm_gen_step c m1) as [[e|[tokens|]] m2]; try (apply Hnone; reflexivity).
  - destruct tokens as [|tk audio]; [apply Hnone; reflexivity|].
    destruct (ec_decode audio m2) as [[e|pcm] m3]; [apply Hnone; reflexivity|].
    destruct (reserved tk) eqn:Hres; cbn [main_audio main_text].
    + exists [pcm], []. rewrite app_nil_r. simpl.
      split; [reflexivity|]. split; [reflexivity|]. split; [lia|]. split; [lia|].
      split; [intros Hn; exfalso; apply Hn; reflexivity|].
      split; [constructor|reflexivity].
    + exists [pcm], [token_text tk]. simpl.
      split; [reflexivity|]. split; [reflexivity|]. split; [lia|]. split; [lia|].
      split; [intros Hn; exfalso; apply Hn; reflexivity|].
      split; [|reflexivity].
      constructor; [exists tk; split; [exact Hres|reflexivity]|constructor].
  - exists [], []. rewrite !app_nil_r. simpl.
    split; [reflexivity|]. split; [reflexivity|]. split; [lia|]. split; [lia|].
    split; [reflexivity|]. split; [constructor|reflexivity].
Qed.

Lemma run_steps_adds n zero b m :
  let '(r, b', _, evs) := run_steps n zero b m in
  exists a t,
    main_audio b' = main_audio b ++ a /\ main_text b' = main_text b ++ t
    /\ length t <= length a /\ length a <= n
    /\ Forall (fun x => exists tk, reserved tk = false /\ x = token_text tk) t
    /\ Forall (fun chunk => chunk = replicate 1920 zero) (encode_calls evs)
    /\ length (encode_calls evs) <= n
    /\ (r = None -> length (encode_calls evs) = n).
Proof.
  revert b m. induction n as [|n IH]; intros b m; simpl.
  - exists [], []. rewrite !app_nil_r. repeat split; auto.
  - pose proof (run_step_adds zero b m) as H1.
    destruct (run_step zero b m) as [[[[e|] b1] m1] evs1].
    + destruct H1 as (a & t & Ha & Ht & Hta & Ha1 & Hr & Hgood & Henc).
      exists a, t. rewrite Henc. simpl.
      repeat split; auto; try lia; try (intros; discriminate).
    + destruct H1 as (a & t & Ha & Ht & Hta & Ha1 & _ & Hgood & Henc).
      specialize (IH b1 m1).
      destruct (run_steps n zero b1 m1) as [[[r b2] m2] evs2].
      destruct IH as (a' & t' & Ha' & Ht' & Hta' & Han & Hgood' & Hall & Hle & Hex).
      exists (a ++ a'), (t ++ t').
      rewrite Ha', Ht', Ha, Ht, encode_calls_app, Henc, !length_app, !app_assoc.
      simpl. repeat split; auto; try lia.
      apply Forall_app. auto.
Qed.

(** X10: whatever the model returns, when [streaming_test] reaches the
    concatenation of the audio (or raises before), [main_text] is not
    longer than [main_audio], which holds at most one frame per step run;
    every text in [main_text] is the piece of a token that is neither 0
    nor 3, with the marker replaced by a space; every [encode] call is on
    1920 samples of silence, and when no call raised there was exactly
    one per step: [steps] of them, and five more under [--profile]. *)
Theorem streaming_test_output (steps : Z) (profile : bool) (zero : sample)
    (m : model_t) :
  let '(r, b, _, evs) := streaming_test steps profile zero m in
  let n := Z.to_nat steps + (if profile then 5 else 0) in
  length (main_text b) <= length (main_audio b)
  /\ length (main_audio b) <= n
  /\ Forall (fun x => exists tk, tk <> 0%Z /\ tk <> 3%Z
                                 /\ x = replace_marker (id_to_piece tk))
       (main_text b)
  /\ Forall (fun chunk => chunk = replicate 1920 zero) (encode_calls evs)
  /\ (r = None -> length (encode_calls evs) = n).
Proof.
  unfold streaming_test.
  assert (Hgood : forall t,
            Forall (fun x => exists tk, reserved tk = false /\ x = token_text tk) t ->
            Forall (fun x => exists tk, tk <> 0%Z /\ tk <> 3%Z
                                        /\ x = replace_marker (id_to_piece tk)) t).
  { intros t Ht. eapply Forall_impl; [exact Ht|].
    intros x (tk & Hres & ->). exists tk.
    assert (Hn : ~ (tk = 0 \/ tk = 3)%Z) by (rewrite <- reserved_spec; congruence).
    repeat split; auto; lia. }
  pose proof (run_steps_adds (Z.to_nat steps) zero
                {| main_audio := []; main_text := [] |} m) as H1.
  destruct (run_steps (Z.to_nat steps) zero _ m) as [[[[e|] b1] m1] evs1].
  - destruct H1 as (a & t & Ha & Ht & Hta & Han & Hg & Hall & Hle & Hex).
    simpl in Ha, Ht. rewrite Ha, Ht.
    repeat split; auto; try lia; try (intros; discriminate).
  - destruct H1 as (a & t & Ha & Ht & Hta & Han & Hg & Hall & Hle & Hex).
    simpl in Ha, Ht. specialize (Hex eq_refl).
    destruct profile.
    + pose proof (run_steps_adds 5 zero b1 m1) as H2.
      destruct (run_steps 5 zero b1 m1) as [[[r b2] m2] evs2].
      destruct H2 as (a' & t' & Ha' & Ht' & Hta' & Han' & Hg' & Hall' & Hle' & Hex').
      rewrite Ha', Ht', Ha, Ht, encode_calls_app, !length_app.
      split; [lia|]. split; [lia|].
      split; [apply Hgood, Forall_app; auto|].
      split; [apply Forall_app; auto|].
      intros Hr. rewrite (Hex' Hr). lia.
    + rewrite Ha, Ht.
      split; [lia|]. split; [lia|]. split; [auto|]. split; [auto|].
      intros _. lia.
Qed.

End WarmupProofs.

(** ** Start-up *)

Lemma getattr_namespace_out flags values name :
  name ∉ map dest flags ->
  getattr (namespace flags values) name = inl AttributeError.
Proof.
  unfold getattr, namespace.
  induction flags as [|f flags IH]; simpl; intros Hout.
  - rewrite lookup_empty. reflexivity.
  - rewrite not_elem_of_cons in Hout. destruct Hout as (Hne & Hout).
    rewrite lookup_insert_ne by congruence.
    apply IH, Hout.
Qed.

(** X12: [main] of server.py never gets past [args.gradio].  When
    [parse_args] exits, [main] ends there, before [seed_all]; for every
    namespace [parse_args] returns, and whether gradio is installed or
    not, [main] raises AttributeError on [args.gradio] right after
    [seed_all] (the parser defines [--gradio_tunnel] and
    [--gradio_tunnel_token], no [--gradio]): no model is loaded and
    nothing is served. *)
Theorem server_main_attribute_error (p : parsed) (gradio_installed : bool) :
  server_main p gradio_installed
  = match p with
    | ParseExit code => (BootExit code, [])
    | ParseOk _ => (BootRaised AttributeError, [BootSeedAll 42424242])
    end.
Proof.
  destruct p as [code|values]; [reflexivity|].
  unfold server_main, parse_args, read.
  rewrite getattr_namespace_out; [reflexivity|].
  vm_compute. intros H.
  repeat (apply elem_of_cons in H as [H|H]; [discriminate H|]).
  inversion H.
Qed.

(** X13: when [parse_args] exits, server_opus.py ends there and nothing
    is downloaded or loaded.  For every namespace [parse_args] returns,
    and with the calls it makes taken to return, server_opus.py reaches
    [serve], reading no attribute its parser lacks: a path given on the
    command line is loaded as given and nothing is downloaded for it; for
    a path that is not given the file is downloaded from [args.hf_repo],
    in the order tokenizer, moshi, mimi, and the downloaded path is the
    one loaded. *)
Theorem server_opus_boot_paths (p : parsed)
    (download : pyval -> string -> string) :
  server_opus_boot p download
  = match p with
    | ParseExit code => (BootExit code, [])
    | ParseOk values =>
        let fetch name file :=
          match values name with
          | PNone => [BootDownload (values "hf_repo") file]
          | _ => []
          end in
        let path name file :=
          match values name with
          | PNone => PStr (download (values "hf_repo") file)
          | v => v
          end in
        let tokenizer := "tokenizer_spm_32k_3.model" in
        let moshi := "moshiko_pt_301e30bf@120.safetensors" in
        let mimi := "tokenizer-e351c8d8-checkpoint125.safetensors" in
        (BootServing,
         fetch "tokenizer" tokenizer ++ fetch "moshi_weights" moshi
         ++ fetch "mimi_weights" mimi
         ++ [BootSeedAll 42424242;
             BootLoadMimi (path "mimi_weights" mimi) (PStr "cuda:0");
             BootLoadTokenizer (path "tokenizer" tokenizer);
             BootLoadMoshi (path "moshi_weights" moshi) (PStr "cuda:0");
             BootServerState; BootWarmup; BootImportGradio;
             BootSetupTunnel (values "port");
             BootServe (values "host") (values "port")])
    end.
Proof.
  destruct p as [code|values]; [reflexivity|].
  cbv zeta. vm_compute.
  destruct (values "tokenizer"), (values "moshi_weights"),
    (values "mimi_weights"); reflexivity.
Qed.

(** ** The further properties on the small instance *)

(** X2 on a run: the first connection of [sch_two] is closed and its
    [recv_loop] has returned. *)
Lemma close_iff_recv_ended_witness :
  exists s : session (E := toy),
    sessions (run (E := toy) ServerOpus 0 sch_two) !! 0 = Some s
    /\ r_pc s = RecvDone
    /\ (close s = true <-> r_pc s = RecvDone \/ exists e, r_pc s = RecvRaised e).
Proof.
  eexists. split; [vm_compute; reflexivity|]. split; [reflexivity|].
  apply (close_iff_recv_ended (E := toy) ServerOpus 0 sch_two 0).
  vm_compute; reflexivity.
Defined.

(** X3 on a run: the connection drops, [recv_loop] returns. *)
Lemma dropped_connection_is_caught_witness :
  exists s : session (E := toy),
    sessions (run (E := toy) ServerOpus 0 sch_dropped) !! 0 = Some s
    /\ trace (run (E := toy) ServerOpus 0 sch_dropped) !! 7
       = Some (0, TRecv, EvLog LvlError MsgDroppedConnection)
    /\ r_pc s <> RecvRaised WebSocketException
    /\ (gather s = GatherRaised WebSocketException ->
        o_pc s = OpusRaised WebSocketException
        \/ s_pc s = SendRaised WebSocketException).
Proof.
  eexists. split; [vm_compute; reflexivity|].
  split; [vm_compute; reflexivity|].
  apply (dropped_connection_is_caught (E := toy) 0 sch_dropped 0).
  vm_compute; reflexivity.
Defined.

(** X4 on a run: the text message of [sch_text]. *)
Lemma outbound_well_formed_witness :
  well_formed (E := toy) [x02; x20; x68; x69].
Proof.
  apply (outbound_well_formed (E := toy) ServerOpus 0 sch_text 0 TOpus _ true).
  apply list_elem_of_In, (list_elem_of_lookup_2 _ 14).
  vm_compute; reflexivity.
Defined.

(** X5 on a run: five samples drained, two frames encoded, one sample
    left. *)
Lemma frames_encoded_count_witness :
  exists s : session (E := toy),
    sessions (run (E := toy) ServerOpus 0 sch_frames) !! 0 = Some s
    /\ length (concat (drained 0 (trace (run (E := toy) ServerOpus 0 sch_frames)))) = 5
    /\ length (encoded 0 (trace (run (E := toy) ServerOpus 0 sch_frames)))
       = length (concat (drained 0 (trace (run (E := toy) ServerOpus 0 sch_frames))))
         / @frame_size toy
    /\ length (buffer s)
       = length (concat (drained 0 (trace (run (E := toy) ServerOpus 0 sch_frames))))
         mod @frame_size toy.
Proof.
  eexists. split; [vm_compute; reflexivity|].
  split; [vm_compute; reflexivity|].
  apply (frames_encoded_count (E := toy) ServerOpus 0 sch_frames 0).
  - simpl. lia.
  - vm_compute; reflexivity.
  - vm_compute; reflexivity.
Defined.

(** X6 on a run: the first connection of [sch_two] has returned. *)
Lemma closed_session_inert_witness :
  exists s : session (E := toy),
    sessions (run (E := toy) ServerOpus 0 sch_two) !! 0 = Some s
    /\ task_step (E := toy) ServerOpus TOpus true 7 s = (true, 7, s, []).
Proof.
  eexists. split; [vm_compute; reflexivity|].
  apply (closed_session_inert (E := toy) ServerOpus 0 sch_two 0);
    vm_compute; reflexivity.
Defined.

(** X7 on a run: the connection about to encode its first frame holds
    the lock. *)
Lemma model_used_under_lock_witness :
  exists s : session (E := toy),
    sessions (run (E := toy) ServerOpus 0 sch_encode) !! 0 = Some s
    /\ snd (opus_step (E := toy) s 0) = [EvEncode (E := toy) [5; 6]%Z]
    /\ (holding s = true
        \/ (exists x, r_pc s = RecvRaised x)
        \/ (exists x, s_pc s = SendRaised x)).
Proof.
  eexists. split; [vm_compute; reflexivity|].
  split; [vm_compute; reflexivity|].
  apply (model_used_under_lock (E := toy) ServerOpus 0 sch_encode 0 _ 0
           (EvEncode (E := toy) [5; 6]%Z)).
  - vm_compute; reflexivity.
  - vm_compute. left. reflexivity.
Defined.

(** X8 on a run: the client of [sch_idle] is gone. *)
Lemma teardown_on_disconnect_witness :
  lock (exec ServerOpus (teardown 0) (run (E := toy) ServerOpus 0 sch_idle)) = false
  /\ model (exec ServerOpus (teardown 0) (run (E := toy) ServerOpus 0 sch_idle))
     = model (run (E := toy) ServerOpus 0 sch_idle)
  /\ trace (exec ServerOpus (teardown 0) (run (E := toy) ServerOpus 0 sch_idle))
     = trace (run (E := toy) ServerOpus 0 sch_idle)
       ++ [(0, TRecv, EvLog LvlInfo MsgConnectionClosed);
           (0, TOpus, EvReadPcm []);
           (0, TSend, EvReadBytes []);
           (0, THandler, EvRelease);
           (0, THandler, EvLog LvlInfo MsgDoneWithConnection)].
Proof.
  pose proof (teardown_on_disconnect (E := toy) ServerOpus
                (run (E := toy) ServerOpus 0 sch_idle) 0
                (toy_session [] None OpusSleep) [] [] []) as H.
  destruct H as (H1 & H2 & H3 & _); try (vm_compute; reflexivity).
  split; [exact H1|]. split; [exact H2|exact H3].
Defined.

(** X9 on the small instance: four frames of two samples. *)
Lemma warmup_calls_witness :
  fst (fst (warmup (E := toy) 0%Z 0)) = None
  /\ length (encode_calls (snd (warmup (E := toy) 0%Z 0))) = 4.
Proof.
  split; [vm_compute; reflexivity|].
  apply (proj1 (proj2 (proj2 (warmup_calls (E := toy) 0%Z 0)))).
  vm_compute; reflexivity.
Defined.

(** X15 on a session: the audio left is sent, then the loop returns. *)
Lemma send_loop_exits_after_close_witness :
  s_pc (fst (send_step (fst (send_step closing_session)))) = SendDone
  \/ exists e, s_pc (fst (send_step (fst (send_step closing_session))))
               = SendRaised e.
Proof.
  apply (send_loop_exits_after_close closing_session).
  - reflexivity.
  - discriminate.
Defined.
